(** * xT: a publish/subscribe task dispatcher (src/xT.js)

    A shallow embedding of the class [xT] and the properties of its
    dispatch algorithm.

    - [Module JS]: the JavaScript values the dispatcher handles (tasks,
      option objects, arrays of tasks, functions, instance handles), the
      language operations the source uses on them (truthiness,
      [instanceof Object], [==] on topics, [Array.prototype.sort], object
      spread and key enumeration).
    - [Module xT]: the class: [#filter], [#sortTasksByPriority], [#on],
      [#emit], [on], [emit], the constructor and the Proxy [get] trap.
    - then the properties.

    Scope of the model. Numbers are integers. A function of the caller
    is known by a number and by what it returns or throws for a [this]
    and arguments; it does not call back into the class. The two kinds
    of queue live in the state and [push] writes to them there; [#emit]
    sorts in place the array a filter returned, which the model takes to
    be a new array, as [Array.prototype.filter] makes it; where a filter
    of the caller answers the very array it was given, the code leaves
    the queue of the instance sorted, and what is proved of every emit
    is which tasks the queues hold afterwards, not their order. What lies
    outside (conversions of [==] between types, exotic receivers) ends a
    run in [Unsupported] rather than in a guess. *)

From stdpp Require Import base option list strings gmap.
From Stdlib Require Import Ascii ZArith Sorted Permutation Lia.

(** ** JavaScript values *)

Module JS.

(** Properties every plain object inherits from [Object.prototype]: what
    [({})[name]] evaluates to for a name the object does not own. *)
Inductive native : Type :=
  | ObjectConstructor                 (* Object *)
  | ObjectPrototype                   (* Object.prototype, through __proto__ *)
  | PrototypeMethod (name : string).  (* Object.prototype.<name> *)

(** Values. A task is the record [#on] builds; [ref] is the identity of
    the object ([#on] allocates a fresh one at every call). A function is
    one of the closures of the class, or a function of the caller. *)
Inductive value : Type :=
  | VUndef
  | VNull
  | VBool (b : bool)
  | VNum (n : Z)
  | VStr (s : string)
  | VObj (ref : nat)                      (* an ordinary object of the caller *)
  | VNative (n : native)
  | VOpts (o : opts)                      (* an options literal {sort: .., ..} *)
  | VTask (t : task)
  | VArr (q : list task)
  | VFun (f : callback)
  | VProxy (ref : nat) (name : string)    (* the handle of instance [name] *)
with opts : Type :=
  | Opts (o_topic : option string) (o_cb : option value) (o_sort : option Z)
         (o_stop o_once o_ctx : option value)
with task : Type :=
  | Task (ref : nat) (topic : string) (cb : value) (sort : Z)
         (stop once ctx : value)
with callback : Type :=
  | User (id : nat)                (* a function written by the caller *)
  | DefaultFilter                  (* xT.#filter *)
  | QueueGetter (inst : string)    (* () => this.queue *)
  | BoundOn (inst : string)        (* xT.#on.bind(null, this.queue) *)
  | InstEmit (inst : string)       (* the emit closure of the constructor *)
  | CoreEmit                       (* xT.emit *)
  | Bind (f : callback) (this : value) (pre : list value).  (* f.bind(this, ...pre) *)

Definition task_ref (t : task) : nat := let 'Task r _ _ _ _ _ _ := t in r.
Definition task_topic (t : task) : string := let 'Task _ x _ _ _ _ _ := t in x.
Definition task_cb (t : task) : value := let 'Task _ _ x _ _ _ _ := t in x.
Definition task_sort (t : task) : Z := let 'Task _ _ _ x _ _ _ := t in x.
Definition task_stop (t : task) : value := let 'Task _ _ _ _ x _ _ := t in x.
Definition task_once (t : task) : value := let 'Task _ _ _ _ _ x _ := t in x.
(** [task.ctx]; [VUndef] when the task has no such property. *)
Definition task_ctx (t : task) : value := let 'Task _ _ _ _ _ _ x := t in x.

Definition o_topic (o : opts) : option string := let 'Opts x _ _ _ _ _ := o in x.
Definition o_cb (o : opts) : option value := let 'Opts _ x _ _ _ _ := o in x.
Definition o_sort (o : opts) : option Z := let 'Opts _ _ x _ _ _ := o in x.
Definition o_stop (o : opts) : option value := let 'Opts _ _ _ x _ _ := o in x.
Definition o_once (o : opts) : option value := let 'Opts _ _ _ _ x _ := o in x.
Definition o_ctx (o : opts) : option value := let 'Opts _ _ _ _ _ x := o in x.

(** The literal [{}]. *)
Definition no_opts : opts := Opts None None None None None None.

(** ToBoolean. *)
Definition truthy (v : value) : bool :=
  match v with
  | VUndef | VNull => false
  | VBool b => b
  | VNum n => negb (n =? 0)%Z
  | VStr s => negb (String.eqb s "")
  | _ => true
  end.

(** [v instanceof Object]: primitives are not; [Object.prototype] has no
    prototype, so it is not either. *)
Definition instanceof_Object (v : value) : bool :=
  match v with
  | VUndef | VNull | VBool _ | VNum _ | VStr _ => false
  | VNative ObjectPrototype => false
  | _ => true
  end.

(** [s == v] for a string [s]. Against a string it is string equality and
    against [undefined] or [null] it is false. Against a number, a boolean
    or an object JavaScript first converts (ToNumber, ToPrimitive); those
    conversions are outside the model and the answer is [None]. *)
Definition loose_eq_string (s : string) (v : value) : option bool :=
  match v with
  | VStr s' => Some (String.eqb s s')
  | VUndef | VNull => Some false
  | _ => None
  end.

(** [Array.prototype.sort(cmp)]. ECMAScript fixes the result only up to
    the comparator; the model is an insertion sort that puts an element
    before the first one it compares negative with, so elements that never
    compare negative keep their insertion order. *)
Fixpoint sort_insert {A} (cmp : A → A → Z) (x : A) (l : list A) : list A :=
  match l with
  | [] => [x]
  | y :: r => if (cmp x y <? 0)%Z then x :: y :: r else y :: sort_insert cmp x r
  end.

Definition array_sort {A} (cmp : A → A → Z) (l : list A) : list A :=
  fold_left (λ acc x, sort_insert cmp x acc) l [].

(** *** Plain objects used as string-keyed tables

    An object literal is the list of its own enumerable properties in
    creation order. *)
Definition obj : Type := list (string * value).

Fixpoint obj_get (k : string) (o : obj) : option value :=
  match o with
  | [] => None
  | (k', v) :: r => if String.eqb k k' then Some v else obj_get k r
  end.

(** [o[k] = v]: an existing property keeps its place. *)
Fixpoint obj_set (k : string) (v : value) (o : obj) : obj :=
  match o with
  | [] => [(k, v)]
  | (k', v') :: r => if String.eqb k k' then (k, v) :: r else (k', v') :: obj_set k v r
  end.

(** Array indices: the canonical decimal strings of 0 .. 2^32 - 2.
    JavaScript enumerates them before the other keys, in numeric order. *)
Definition digit (c : ascii) : option N :=
  let n := N_of_ascii c in
  if (48 <=? n)%N && (n <=? 57)%N then Some (n - 48)%N else None.

Fixpoint digits (s : string) (acc : N) : option N :=
  match s with
  | EmptyString => Some acc
  | String c r =>
      match digit c with
      | Some d => digits r (acc * 10 + d)%N
      | None => None
      end
  end.

Definition array_index (s : string) : option N :=
  match s with
  | EmptyString => None
  | String c r =>
      if Ascii.eqb c "0"%char then
        match r with EmptyString => Some 0%N | _ => None end
      else
        match digits s 0 with
        | Some n => if (n <=? 4294967294)%N then Some n else None
        | None => None
        end
  end.

Definition is_index (s : string) : bool :=
  match array_index s with Some _ => true | None => false end.

Definition index_cmp (a b : string * value) : Z :=
  match array_index a.1, array_index b.1 with
  | Some i, Some j => if (i <? j)%N then (-1)%Z else 1%Z
  | _, _ => 1%Z
  end.

(** [Object.entries(o)]. *)
Definition entries (o : obj) : list (string * value) :=
  array_sort index_cmp (List.filter (λ kv, is_index kv.1) o)
  ++ List.filter (λ kv, negb (is_index kv.1)) o.

(** [Object.keys(o)]. *)
Definition keys (o : obj) : list string := (entries o).*1.

(** [{...dst, ...src}] when [dst] is what the literal holds so far. *)
Definition spread (src dst : obj) : obj :=
  fold_left (λ acc kv, obj_set kv.1 kv.2 acc) (entries src) dst.

(** [Array.prototype.includes] on a list of strings. *)
Definition includes (l : list string) (s : string) : bool :=
  existsb (String.eqb s) l.

End JS.

(** ** The class xT *)

Module xT.
Import JS.

(** What a call ends in. [Unsupported] marks a run that leaves the
    modelled fragment of JavaScript (see [loose_eq_string]); [OutOfFuel]
    a run longer than the bound given to [call]. *)
Inductive error : Type :=
  | ReferenceError (ident : string)
  | TypeError
  | RangeError
  | Thrown (v : value).              (* thrown by a function of the caller *)

Inductive outcome (A : Type) : Type :=
  | Ret (a : A)
  | Throw (e : error)
  | Unsupported
  | OutOfFuel.
Arguments Ret {A} a.
Arguments Throw {A} e.
Arguments Unsupported {A}.
Arguments OutOfFuel {A}.

(** How a function of the caller completes. *)
Inductive completion : Type :=
  | Normal (v : value)
  | Abrupt (v : value).

Definition of_completion (c : completion) : outcome value :=
  match c with
  | Normal v => Ret v
  | Abrupt v => Throw (Thrown v)
  end.

#[local] Set Warnings "-register-all".

(** The observable history of a run: every [task.cb.call(ctx, ...args)]
    of [#emit] with the task, the [this] it passed, the arguments, how
    the call ended and what happened inside it; and the lines written
    with [console.log]. *)
Inductive event : Type :=
  | Invoked (t : task) (this : value) (args : list value)
            (res : outcome value) (inner : list event)
  | ConsoleLog (msg : string).

(** An instance: the handle stored in [#instances], the keys of its
    feature object, and the array [this.queue] of the object under
    construction. *)
Record instance : Type := {
  i_handle : nat;
  i_features : list string;
  i_queue : list task
}.

(** The static fields [#queue] and [#instances], and the next free object
    identity. *)
Record state : Type := {
  queue : list task;
  instances : gmap string instance;
  fresh : nat
}.

Definition init : state := {| queue := []; instances := ∅; fresh := 0 |}.

(** Computations: the state is threaded also through a throw, and the
    history is the concatenation of the parts'. *)
Definition M (A : Type) : Type := state → outcome A * state * list event.

Definition ret {A} (a : A) : M A := λ st, (Ret a, st, []).
Definition throw {A} (e : error) : M A := λ st, (Throw e, st, []).
Definition unsupported {A} : M A := λ st, (Unsupported, st, []).

Definition bind {A B} (m : M A) (k : A → M B) : M B := λ st,
  match m st with
  | (Ret a, st1, ev1) => let '(o, st2, ev2) := k a st1 in (o, st2, ev1 ++ ev2)
  | (Throw e, st1, ev1) => (Throw e, st1, ev1)
  | (Unsupported, st1, ev1) => (Unsupported, st1, ev1)
  | (OutOfFuel, st1, ev1) => (OutOfFuel, st1, ev1)
  end.

Notation "'let*' x ':=' m 'in' k" := (bind m (λ x, k))
  (at level 10, x name, m at level 100, k at level 200).

Definition result {A} (r : outcome A * state * list event) : outcome A := r.1.1.
Definition final {A} (r : outcome A * state * list event) : state := r.1.2.
Definition history {A} (r : outcome A * state * list event) : list event := r.2.

(** The tasks whose callbacks a history shows, outermost calls only. *)
Definition invoked (evs : list event) : list task :=
  omap (λ e, match e with Invoked t _ _ _ _ => Some t | ConsoleLog _ => None end) evs.

(** *** [#filter], [#sortTasksByPriority] *)

(** [filterQueue.filter(task => task.topic == topic)] on an array. *)
Fixpoint filter_tasks (filterQueue : list task) (topic : value) : option (list task) :=
  match filterQueue with
  | [] => Some []
  | t :: r =>
      match loose_eq_string (task_topic t) topic, filter_tasks r topic with
      | Some b, Some r' => Some (if b then t :: r' else r')
      | _, _ => None
      end
  end.

(** [xT.#filter]. A value without a [filter] method raises TypeError
    when the method is called; the handle of an instance and an object
    of the caller may answer anything. *)
Definition priv_filter (filterQueue topic : value) : M value :=
  match filterQueue with
  | VArr q =>
      match filter_tasks q topic with
      | Some r => ret (VArr r)
      | None => unsupported
      end
  | VProxy _ _ | VObj _ => unsupported
  | _ => throw TypeError
  end.

Definition sortTasksByPriority (taskA taskB : task) : Z :=
  if (task_sort taskA <? task_sort taskB)%Z then (-1)%Z else 1%Z.

(** *** [#on] *)

(** The array a closure of the class pushes to or reads: [xT.#queue] or
    the [this.queue] of an instance. *)
Inductive qref : Type :=
  | CoreQueue
  | LocalQueue (inst : string).

Definition read_queue (q : qref) : M (list task) := λ st,
  match q with
  | CoreQueue => (Ret (queue st), st, [])
  | LocalQueue name =>
      match instances st !! name with
      | Some i => (Ret (i_queue i), st, [])
      | None => (Unsupported, st, [])
      end
  end.

Definition push (q : qref) (t : task) : M unit := λ st,
  match q with
  | CoreQueue =>
      (Ret tt, {| queue := queue st ++ [t]; instances := instances st;
                  fresh := fresh st |}, [])
  | LocalQueue name =>
      match instances st !! name with
      | Some i =>
          (Ret tt, {| queue := queue st;
                      instances := <[name := {| i_handle := i_handle i;
                                                i_features := i_features i;
                                                i_queue := i_queue i ++ [t] |}]>
                                     (instances st);
                      fresh := fresh st |}, [])
      | None => (Unsupported, st, [])
      end
  end.

(** A new object identity. *)
Definition alloc : M nat := λ st,
  (Ret (fresh st), {| queue := queue st; instances := instances st;
                      fresh := S (fresh st) |}, []).

(** [{ topic, cb, sort: 0, stop: 0, once: 0, ...opts }] *)
Definition make_task (ref : nat) (topic : string) (cb : value) (o : opts) : task :=
  Task ref
       (default topic (o_topic o))
       (default cb (o_cb o))
       (default 0%Z (o_sort o))
       (default (VNum 0) (o_stop o))
       (default (VNum 0) (o_once o))
       (default VUndef (o_ctx o)).

Definition priv_on (currentQueue : qref) (topic : string) (cb : value) (o : opts)
  : M value :=
  let* ref := alloc in
  let task := make_task ref topic cb o in
  let* _ := push currentQueue task in
  ret (VTask task).

(** The own enumerable properties a spread [...v] copies, as far as the
    task reads them. A primitive, an array and a function contribute no
    property the task reads; a task contributes all its fields. *)
Definition spread_opts (v : value) : option opts :=
  match v with
  | VOpts o => Some o
  | VTask t =>
      Some (Opts (Some (task_topic t)) (Some (task_cb t)) (Some (task_sort t))
                 (Some (task_stop t)) (Some (task_once t)) (Some (task_ctx t)))
  | VObj _ | VProxy _ _ | VNative _ => None
  | _ => Some no_opts
  end.

(** [#on] reached with argument values (through [bind]): the default
    [opts = {}] applies to [undefined]; topics are strings. *)
Definition on_values (currentQueue : qref) (topic cb o : value) : M value :=
  match topic, spread_opts o with
  | VStr s, Some o' => priv_on currentQueue s cb o'
  | _, _ => unsupported
  end.

(** *** [#emit] *)

(** [args[0] instanceof Object ? args.shift() : null] *)
Definition shift_ctx (args : list value) : value * list value :=
  match args with
  | a :: rest => if instanceof_Object a then (a, rest) else (VNull, args)
  | [] => (VNull, [])
  end.

(** [args.shift()] *)
Definition shift (args : list value) : value * list value :=
  match args with
  | a :: rest => (a, rest)
  | [] => (VUndef, [])
  end.

Section Emit.

(** How a function value is called: [call] below, at some fuel. *)
Variable invoke : callback → value → list value → M value.

(** [task.cb.call(this, ...args)], recorded in the history. *)
Definition call_cb (t : task) (this : value) (args : list value) : M value := λ st,
  match task_cb t with
  | VFun f =>
      let '(o, st', inner) := invoke f this args st in
      (o, st', [Invoked t this args o inner])
  | VProxy _ _ | VObj _ | VNative _ => (Unsupported, st, [])
  | _ => (Throw TypeError, st, [])
  end.

(** The loop of [#emit] over the sorted array. The variable [ctx] is
    assigned in the loop body and so carried to the next round;
    [removeTask] is bound nowhere in the class or in the language, so
    evaluating it raises ReferenceError. *)
Fixpoint emit_loop (tasks : list task) (args : list value) (ctx taskReturn : value)
  : M value :=
  match tasks with
  | [] => ret taskReturn
  | task :: rest =>
      let ctx := if truthy ctx then ctx
                 else if truthy (task_ctx task) then task_ctx task
                 else VTask task in
      let* result := call_cb task (if truthy ctx then ctx else task_ctx task) args in
      let taskReturn := if truthy result then result else taskReturn in
      if truthy (task_once task) then throw (ReferenceError "removeTask")
      else if truthy (task_stop task) then ret taskReturn
      else emit_loop rest args ctx taskReturn
  end.

(** [xT.#emit]. Only an array has [sort]. [sort] orders the array it is
    called on and the loop runs over that array. The array [xT.emit]
    passes is the new one [#filter] made. The array the [emit] of an
    instance passes is what the filter tasks answered: a new array, for
    [#filter] and for a filter of the caller that builds one. A filter
    of the caller that answers the array it was given has the queue of
    the instance itself sorted; the model follows the loop, which is the
    same, and not the order that queue is left in. *)
Definition priv_emit (currentQueue : value) (args : list value) (ctx : value)
  : M value :=
  match currentQueue with
  | VArr q => emit_loop (array_sort sortTasksByPriority q) args ctx VUndef
  | VProxy _ _ | VObj _ => unsupported
  | _ => throw TypeError
  end.

(** [xT.emit] *)
Definition emit_with (args : list value) : M value :=
  let '(ctx, args) := shift_ctx args in
  let '(topic, args) := shift args in
  let* q := read_queue CoreQueue in
  let* topicQueue := priv_filter (VArr q) topic in
  priv_emit topicQueue args ctx.

Definition topic_of (name prop : string) : string :=
  "$" +:+ name +:+ ":" +:+ prop.

(** The [emit] closure the constructor puts in [features]. *)
Definition inst_emit_with (name : string) (args : list value) : M value :=
  let '(ctx, args) := shift_ctx args in
  let '(topic, args) := shift args in
  let* q := read_queue (LocalQueue name) in
  let* topicQueue := emit_with [VStr (topic_of name "filter"); VArr q; topic] in
  priv_emit topicQueue args ctx.

End Emit.

(** *** Calling a function value *)

Section Callbacks.

(** The functions of the caller: what function [id] does when called
    with a [this] and arguments. *)
Variable impl : nat → value → list value → completion.

(** [f.call(this, ...args)]. Arrow functions and bound functions
    ignore the [this] of the call. *)
Fixpoint call (fuel : nat) (f : callback) (this : value) (args : list value)
  : M value :=
  match fuel with
  | O => λ st, (OutOfFuel, st, [])
  | S n =>
      match f with
      | User id => λ st, (of_completion (impl id this args), st, [])
      | DefaultFilter => priv_filter (nth 0 args VUndef) (nth 1 args VUndef)
      | QueueGetter name =>
          let* q := read_queue (LocalQueue name) in ret (VArr q)
      | BoundOn name =>
          on_values (LocalQueue name)
                    (nth 0 args VUndef) (nth 1 args VUndef) (nth 2 args VUndef)
      | InstEmit name => inst_emit_with (call n) name args
      | CoreEmit => emit_with (call n) args
      | Bind g this' pre => call n g this' (pre ++ args)
      end
  end.

(** [v(...args)] for a value. *)
Definition apply (fuel : nat) (v : value) (args : list value) : M value :=
  match v with
  | VFun f => call fuel f VUndef args
  | VProxy _ _ | VObj _ | VNative _ => unsupported
  | _ => throw TypeError
  end.

(** *** The static members *)

(** [xT.on] *)
Definition on (topic : string) (cb : value) (o : opts) : M value :=
  priv_on CoreQueue topic cb o.

(** [xT.emit] *)
Definition emit (fuel : nat) (args : list value) : M value :=
  emit_with (call fuel) args.

(** *** The constructor *)

(** The names [Object.prototype] defines. *)
Definition inherited (name : string) : option native :=
  if String.eqb name "constructor" then Some ObjectConstructor
  else if String.eqb name "__proto__" then Some ObjectPrototype
  else if includes ["hasOwnProperty"; "isPrototypeOf"; "propertyIsEnumerable";
                    "toLocaleString"; "toString"; "valueOf";
                    "__defineGetter__"; "__defineSetter__";
                    "__lookupGetter__"; "__lookupSetter__"] name
       then Some (PrototypeMethod name)
  else None.

(** [xT.#instances[name]]: [#instances] is the literal [{}], so a name
    it does not own is looked up in [Object.prototype]. *)
Definition instances_get (name : string) (st : state) : value :=
  match instances st !! name with
  | Some i => VProxy (i_handle i) name
  | None =>
      match inherited name with
      | Some n => VNative n
      | None => VUndef
      end
  end.

(** The literal the constructor assigns to [features]. *)
Definition effective (name : string) (features : obj) : obj :=
  obj_set "emit" (VFun (InstEmit name))
    (obj_set "on" (VFun (BoundOn name))
      (obj_set "queue" (VFun (QueueGetter name))
        (spread features
          (obj_set "filter" (VFun DefaultFilter) [])))).

(** [Object.entries(features).forEach(([prop, action]) =>
      xT.on(`$${name}:${prop}`, action))] *)
Fixpoint register (name : string) (l : list (string * value)) : M unit :=
  match l with
  | [] => ret tt
  | (prop, action) :: r =>
      let* _ := on (topic_of name prop) action no_opts in
      register name r
  end.

(** [xT.#instances[name] = new Proxy(...)]; [this.queue] is the empty
    array the field initialiser made. *)
Definition store (name : string) (keys : list string) : M value :=
  let* ref := alloc in
  λ st, (Ret (VProxy ref name),
         {| queue := queue st;
            instances := <[name := {| i_handle := ref; i_features := keys;
                                      i_queue := [] |}]> (instances st);
            fresh := fresh st |}, []).

(** [new xT(name, features)] *)
Definition construct (name : string) (features : obj) : M value := λ st,
  if truthy (instances_get name st) then
    (Ret (instances_get name st), st, [ConsoleLog "Return existing instance"])
  else
    let features := effective name features in
    (let* _ := register name (entries features) in
     store name (keys features)) st.

(** *** The [get] trap of the handle *)

(** [xT.emit.bind(null, `$${name}:${prop}`)] *)
Definition feature_invoker (name prop : string) : callback :=
  Bind CoreEmit VNull [VStr (topic_of name prop)].

(** [get: (target, prop) => ...] of the handle of [name]. In the else
    branch [xT.#instances[name].emit] reads [emit] through this same
    trap; [emit] is a key of every feature object, and a feature object
    without it would send the trap into itself without end.

    The target is the feature object after
    [Object.defineProperty(features, 'name', {value: name})]. When
    [name] was no key of it, that call makes [name] a property that can
    be neither written nor configured, and a Proxy has to report such a
    property with the value the target holds: the trap reports a
    function instead, so the read raises TypeError. When [name] was a
    key, the call only replaces its value and the property stays an
    ordinary key. *)
Definition get (name prop : string) : M value := λ st,
  match instances st !! name with
  | Some i =>
      if includes (i_features i) prop then
        (Ret (VFun (feature_invoker name prop)), st, [])
      else if includes (i_features i) "emit" then
        if String.eqb prop "name" then (Throw TypeError, st, [])
        else
          (Ret (VFun (Bind (feature_invoker name "emit") (VStr prop) [])), st, [])
      else (Throw RangeError, st, [])
  | None => (Unsupported, st, [])
  end.

(** [handle.prop(...args)] *)
Definition method (fuel : nat) (name prop : string) (args : list value) : M value :=
  let* f := get name prop in
  apply fuel f args.

End Callbacks.

End xT.

(** ** Vocabulary of the properties *)

Import JS xT.

(** [task.topic == topic] for a string [topic]. *)
Definition topic_is (topic : string) (t : task) : bool :=
  String.eqb (task_topic t) topic.

(** [a] comes strictly before [b] in the order of [sort]. *)
Definition before (a b : task) : Prop := (task_sort a < task_sort b)%Z.

(** The tasks [xT.emit(topic, ...)] hands to the loop of [#emit]. *)
Definition selected (topic : string) (q : list task) : list task :=
  array_sort sortTasksByPriority (List.filter (topic_is topic) q).


(** The calls of functions of the caller a history shows, in the order
    they happened: which function, with which [this] and arguments. *)
Fixpoint calls (e : event) : list (nat * value * list value) :=
  match e with
  | Invoked t this args _ inner =>
      match task_cb t with
      | VFun (User id) => [(id, this, args)]
      | _ => []
      end ++ flat_map calls inner
  | ConsoleLog _ => []
  end.

Definition user_calls (evs : list event) : list (nat * value * list value) :=
  flat_map calls evs.

(** The last truthy value of a list of return values, [d] when there is
    none. *)
Definition last_truthy (d : value) (vs : list value) : value :=
  fold_left (λ acc v, if truthy v then v else acc) vs d.

(** The values the outermost calls of a history returned. *)
Definition returned (evs : list event) : list value :=
  omap (λ e, match e with
             | Invoked _ _ _ (Ret v) _ => Some v
             | _ => None
             end) evs.


(** A task whose callback is a function of the caller that returns,
    with neither [stop] nor [once]. *)
Definition quiet (impl : nat → value → list value → completion) (t : task) : Prop :=
  (∃ id, task_cb t = VFun (User id) ∧ ∀ this args, ∃ v, impl id this args = Normal v)
  ∧ truthy (task_stop t) = false
  ∧ truthy (task_once t) = false.

(** The tasks the constructor registers for the entries of a feature
    object when the first new object gets identity [n]. *)
Fixpoint feature_tasks (n : nat) (name : string) (l : list (string * value))
  : list task :=
  match l with
  | [] => []
  | (prop, action) :: r =>
      make_task n (topic_of name prop) action no_opts :: feature_tasks (S n) name r
  end.

(** [st'] holds every task [st] holds, in the same places: the core
    queue and the queue of every instance have only been extended. *)
Definition grows (st st' : state) : Prop :=
  queue st `prefix_of` queue st'
  ∧ ∀ name i, instances st !! name = Some i →
      ∃ i', instances st' !! name = Some i' ∧ i_queue i `prefix_of` i_queue i'.

(** A computation that only extends the queues. *)
Definition extending {A} (m : M A) : Prop := ∀ st, grows st (final (m st)).

(** [st'] holds every task [st] holds, as many times, whatever the
    order: nothing has been taken out of the core queue or out of the
    queue of an instance. *)
Definition keeps (st st' : state) : Prop :=
  queue st ⊆+ queue st'
  ∧ ∀ name i, instances st !! name = Some i →
      ∃ i', instances st' !! name = Some i' ∧ i_queue i ⊆+ i_queue i'.

(** A computation that takes no task out of a queue. *)
Definition keeping {A} (m : M A) : Prop := ∀ st, keeps st (final (m st)).

(** A callback value whose [.call] is no function: a primitive, a task,
    an options literal or an array. *)
Definition not_callable (v : value) : bool :=
  match v with
  | VUndef | VNull | VBool _ | VNum _ | VStr _ | VOpts _ | VTask _ | VArr _ => true
  | _ => false
  end.

(** *** Scenarios

    The functions of the caller are numbered; [impl] says what they do. *)

Definition cb1 : value := VFun (User 1).
Definition cb2 : value := VFun (User 2).
Definition cb3 : value := VFun (User 3).

(** [on('t', cb1, {sort:-1}); on('t', cb2, {sort:1, stop:1});
     on('t', cb3, {sort:2})] *)
Definition stop_scenario : M value :=
  let* _ := on "t" cb1 (Opts None None (Some (-1)%Z) None None None) in
  let* _ := on "t" cb2 (Opts None None (Some 1%Z) (Some (VNum 1)) None None) in
  on "t" cb3 (Opts None None (Some 2%Z) None None None).

(** [on('t', cb1, {stop:1, once:1}); on('t', cb2, {sort:1})] *)
Definition stop_once_scenario : M value :=
  let* _ := on "t" cb1 (Opts None None None (Some (VNum 1)) (Some (VNum 1)) None) in
  on "t" cb2 (Opts None None (Some 1%Z) None None None).

(** [on('once-task', cb1, {once:1}); on('once-task', cb2, {sort:1})] *)
Definition once_scenario : M value :=
  let* _ := on "once-task" cb1 (Opts None None None None (Some (VNum 1)) None) in
  on "once-task" cb2 (Opts None None (Some 1%Z) None None None).

(** [on('t', cb1); on('t', cb2, {sort:1})] *)
Definition plain_scenario : M value :=
  let* _ := on "t" cb1 no_opts in
  on "t" cb2 (Opts None None (Some 1%Z) None None None).

(** [on('t', cb1, {ctx: a}); on('t', cb2, {sort:1, ctx: b})] for two
    objects [a] and [b] of the caller. *)
Definition bound_scenario : M value :=
  let* _ := on "t" cb1 (Opts None None None None None (Some (VObj 7))) in
  on "t" cb2 (Opts None None (Some 1%Z) None None (Some (VObj 8))).

(** [on('t', () => 'a'); on('t', () => 0, {sort: 1, once: 1})] *)
Definition result_scenario : M value :=
  let* _ := on "t" cb1 no_opts in
  on "t" cb2 (Opts None None (Some 1%Z) None (Some (VNum 1)) None).

Definition result_impl (id : nat) (this : value) (args : list value) : completion :=
  match id with
  | 1 => Normal (VStr "a")
  | _ => Normal (VNum 0)
  end.

(** [u = new xT('u', {}); u.on('topic', cb1)] *)
Definition instance_scenario (impl : nat → value → list value → completion)
  : M value :=
  let* _ := construct "u" [] in
  method impl 4 "u" "on" [VStr "topic"; cb1].

(** [u = new xT('u', {}); u.on('foo', cb1); u.on('bar', cb2)] *)
Definition fallback_scenario (impl : nat → value → list value → completion)
  : M value :=
  let* _ := construct "u" [] in
  let* _ := method impl 4 "u" "on" [VStr "foo"; cb1] in
  method impl 4 "u" "on" [VStr "bar"; cb2].

(** Evaluation of an emit over a known queue, up to the answers of the
    functions of the caller. *)
Ltac run_emit :=
  repeat (progress (unfold bind, call_cb, throw, ret, history, result, final,
                      selected, make_task; simpl)).

(** ** Sorting *)

Section Sorting.
Context {A : Type} (cmp : A → A → Z).

Lemma sort_insert_perm x l : Permutation (sort_insert cmp x l) (x :: l).
Proof.
  induction l as [|y r IH]; simpl; [reflexivity|].
  destruct (cmp x y <? 0)%Z; [reflexivity|].
  rewrite IH. apply perm_swap.
Qed.

Lemma fold_sort_insert_perm l acc :
  Permutation (fold_left (λ acc x, sort_insert cmp x acc) l acc) (l ++ acc).
Proof.
  revert acc. induction l as [|x l IH]; intros acc; simpl; [reflexivity|].
  rewrite IH, sort_insert_perm. symmetry. apply Permutation_middle.
Qed.

Lemma array_sort_perm l : Permutation (array_sort cmp l) l.
Proof.
  unfold array_sort. rewrite fold_sort_insert_perm. by rewrite app_nil_r.
Qed.

Lemma array_sort_singleton x : array_sort cmp [x] = [x].
Proof. reflexivity. Qed.
End Sorting.

Lemma sort_insert_sorted x l :
  StronglySorted before l →
  Forall (λ y, task_sort y ≠ task_sort x) l →
  StronglySorted before (sort_insert sortTasksByPriority x l).
Proof.
  induction 1 as [|y r Hr IH Hy]; intros Hne; simpl.
  - repeat constructor.
  - inversion Hne as [|? ? Hyx Hne']; subst.
    unfold sortTasksByPriority at 1.
    destruct (task_sort x <? task_sort y)%Z eqn:E; simpl.
    + apply Z.ltb_lt in E. constructor; [by constructor|].
      constructor; [exact E|].
      eapply Forall_impl; [exact Hy|]. unfold before. intros; simpl in *; lia.
    + apply Z.ltb_ge in E. constructor; [by apply IH|].
      rewrite sort_insert_perm. constructor.
      * unfold before. lia.
      * exact Hy.
  Qed.

Lemma array_sort_sorted l :
  NoDup (task_sort <$> l) →
  StronglySorted before (array_sort sortTasksByPriority l).
Proof.
  unfold array_sort.
  assert (G : ∀ l acc,
    StronglySorted before acc →
    NoDup (task_sort <$> l) →
    (∀ x y, x ∈ l → y ∈ acc → task_sort y ≠ task_sort x) →
    StronglySorted before
      (fold_left (λ acc x, sort_insert sortTasksByPriority x acc) l acc)).
  { clear l. induction l as [|x l IH]; intros acc Hacc Hnd Hsep; simpl; [done|].
    apply NoDup_cons in Hnd as [Hx Hnd].
    apply IH; [|done|].
    - apply sort_insert_sorted; [done|].
      apply Forall_forall. intros y Hy. apply Hsep; [left|done].
    - intros a b Ha Hb. rewrite sort_insert_perm in Hb.
      apply elem_of_cons in Hb as [->|Hb].
      + intros E. apply Hx. rewrite E. by apply list_elem_of_fmap_2.
      + apply Hsep; [by right|done]. }
  intros Hnd. apply G; [constructor|done|].
  intros x y _ Hy. by apply elem_of_nil in Hy.
Qed.

(** With pairwise distinct [sort] values the ascending arrangement of
    an array is unique: whatever algorithm an engine sorts with, its
    result is the one of [array_sort]. *)
Lemma ascending_unique l1 l2 :
  l1 ≡ₚ l2 → StronglySorted before l1 → StronglySorted before l2 → l1 = l2.
Proof.
  revert l2. induction l1 as [|x l1 IH]; intros l2 Hp H1 H2.
  - by apply Permutation_nil in Hp.
  - destruct l2 as [|y l2]; [by apply Permutation_sym, Permutation_nil in Hp|].
    apply StronglySorted_inv in H1 as [H1 Hx].
    apply StronglySorted_inv in H2 as [H2 Hy].
    assert (Exy : x = y).
    { assert (Hxin : x ∈ y :: l2) by (rewrite <- Hp; left).
      assert (Hyin : y ∈ x :: l1) by (rewrite Hp; left).
      apply elem_of_cons in Hxin as [?|Hxin]; [done|].
      apply elem_of_cons in Hyin as [?|Hyin]; [done|].
      rewrite Forall_forall in Hx, Hy.
      specialize (Hx _ Hyin). specialize (Hy _ Hxin).
      unfold before in *. lia. }
    subst y. f_equal. apply IH; [|done|done].
    by apply Permutation_cons_inv in Hp.
Qed.

Lemma array_sort_unique l l' :
  NoDup (task_sort <$> l) →
  l' ≡ₚ l → StronglySorted before l' →
  l' = array_sort sortTasksByPriority l.
Proof.
  intros Hnd Hp Hs. apply ascending_unique; [|done|by apply array_sort_sorted].
  by rewrite array_sort_perm.
Qed.

(** ** The default filter and the shape of an emit *)

Lemma filter_tasks_string q s :
  filter_tasks q (VStr s) = Some (List.filter (topic_is s) q).
Proof.
  induction q as [|t r IH]; simpl; [done|].
  rewrite IH. unfold topic_is. by destruct (String.eqb (task_topic t) s).
Qed.

(** [xT.emit(topic, ...args)] with a string topic runs the loop over the
    selected tasks, with no context. *)
Lemma emit_with_string invoke topic args st :
  emit_with invoke (VStr topic :: args) st
  = emit_loop invoke (selected topic (queue st)) args VNull VUndef st.
Proof.
  unfold emit_with, shift_ctx, shift. simpl.
  unfold bind at 1, read_queue. simpl.
  rewrite filter_tasks_string. unfold bind, ret. simpl.
  unfold selected.
  by destruct (emit_loop _ _ _ _ _ _) as [[o s] e].
Qed.

(** ** The loop of [#emit] *)

Section Loop.
Variable invoke : callback → value → list value → M value.

(** One round of the loop, spelled out. *)
Lemma emit_loop_cons task rest args ctx tr st :
  emit_loop invoke (task :: rest) args ctx tr st =
    let ctx' := if truthy ctx then ctx
                else if truthy (task_ctx task) then task_ctx task
                else VTask task in
    match call_cb invoke task (if truthy ctx' then ctx' else task_ctx task) args st with
    | (Ret result, st1, ev1) =>
        let tr' := if truthy result then result else tr in
        if truthy (task_once task) then (Throw (ReferenceError "removeTask"), st1, ev1)
        else if truthy (task_stop task) then (Ret tr', st1, ev1)
        else let '(o, st2, ev2) := emit_loop invoke rest args ctx' tr' st1 in
             (o, st2, ev1 ++ ev2)
    | (Throw e, st1, ev1) => (Throw e, st1, ev1)
    | (Unsupported, st1, ev1) => (Unsupported, st1, ev1)
    | (OutOfFuel, st1, ev1) => (OutOfFuel, st1, ev1)
    end.
Proof.
  simpl. unfold bind.
  destruct (call_cb _ _ _ _ _) as [[[r|e| |] st1] ev1]; try reflexivity.
  destruct (truthy (task_once task)); [unfold throw; by rewrite app_nil_r|].
  destruct (truthy (task_stop task)); [unfold ret; by rewrite app_nil_r|].
  reflexivity.
Qed.

(** What [call_cb] writes in the history: nothing, or the one call. *)
Lemma call_cb_history t this args st :
  invoked (history (call_cb invoke t this args st)) = []
  ∨ invoked (history (call_cb invoke t this args st)) = [t].
Proof.
  unfold call_cb. destruct (task_cb t); auto.
  destruct (invoke _ _ _ _) as [[o s] e]. by right.
Qed.

Lemma call_cb_ret_history t this args st v :
  result (call_cb invoke t this args st) = Ret v →
  invoked (history (call_cb invoke t this args st)) = [t].
Proof.
  unfold call_cb. destruct (task_cb t); try discriminate.
  by destruct (invoke _ _ _ _) as [[o s] e].
Qed.

Lemma invoked_app e1 e2 : invoked (e1 ++ e2) = invoked e1 ++ invoked e2.
Proof. unfold invoked. apply omap_app. Qed.

(** The loop calls the callbacks of its tasks in the order of the
    array, none twice and none out of turn. *)
Lemma emit_loop_prefix tasks args ctx tr st :
  invoked (history (emit_loop invoke tasks args ctx tr st)) `prefix_of` tasks.
Proof.
  revert ctx tr st. induction tasks as [|t rest IH]; intros ctx tr st.
  - simpl. by exists [].
  - rewrite emit_loop_cons. cbv zeta.
    set (ctx' := if truthy ctx then ctx else _).
    set (this := if truthy ctx' then ctx' else _).
    pose proof (call_cb_history t this args st) as Hh.
    pose proof (call_cb_ret_history t this args st) as Hr.
    destruct (call_cb invoke t this args st) as [[[r|e| |] st1] ev1];
      unfold history, result in *; simpl in *;
      try (destruct Hh as [-> | ->]; [apply prefix_nil | apply prefix_cons, prefix_nil]).
    specialize (Hr r eq_refl).
    destruct (truthy (task_once t)); simpl; [rewrite Hr; apply prefix_cons, prefix_nil|].
    destruct (truthy (task_stop t)); simpl; [rewrite Hr; apply prefix_cons, prefix_nil|].
    specialize (IH ctx' (if truthy r then r else tr) st1).
    destruct (emit_loop invoke rest args ctx' _ st1) as [[o2 st2] ev2].
    unfold history in IH. simpl in *. rewrite invoked_app, Hr. simpl.
    by apply prefix_cons.
Qed.
(** A task with [stop] set is the last one the loop calls. *)
Lemma emit_loop_stop pre t post args ctx tr st :
  truthy (task_stop t) = true →
  invoked (history (emit_loop invoke (pre ++ t :: post) args ctx tr st))
    `prefix_of` pre ++ [t].
Proof.
  intros Hstop. revert ctx tr st.
  induction pre as [|x pre IH]; intros ctx tr st; simpl app;
    rewrite emit_loop_cons; cbv zeta.
  - set (ctx' := if truthy ctx then ctx else _).
    set (this := if truthy ctx' then ctx' else _).
    pose proof (call_cb_history t this args st) as Hh.
    destruct (call_cb invoke t this args st) as [[[r|e| |] st1] ev1];
      unfold history in *; simpl in *;
      try (destruct Hh as [-> | ->]; [apply prefix_nil | done]).
    rewrite Hstop.
    destruct (truthy (task_once t)); simpl;
      (destruct Hh as [-> | ->]; [apply prefix_nil | done]).
  - set (ctx' := if truthy ctx then ctx else _).
    set (this := if truthy ctx' then ctx' else _).
    pose proof (call_cb_history x this args st) as Hh.
    pose proof (call_cb_ret_history x this args st) as Hr.
    destruct (call_cb invoke x this args st) as [[[r|e| |] st1] ev1];
      unfold history, result in *; simpl in *;
      try (destruct Hh as [-> | ->]; [apply prefix_nil | apply prefix_cons, prefix_nil]).
    specialize (Hr r eq_refl).
    destruct (truthy (task_once x)); simpl; [rewrite Hr; apply prefix_cons, prefix_nil|].
    destruct (truthy (task_stop x)); simpl; [rewrite Hr; apply prefix_cons, prefix_nil|].
    specialize (IH ctx' (if truthy r then r else tr) st1).
    destruct (emit_loop invoke (pre ++ t :: post) args ctx' _ st1) as [[o2 st2] ev2].
    unfold history in IH. simpl in *. rewrite invoked_app, Hr. simpl.
    by apply prefix_cons.
Qed.

Lemma last_truthy_app d l1 l2 :
  last_truthy d (l1 ++ l2) = last_truthy (last_truthy d l1) l2.
Proof. unfold last_truthy. apply fold_left_app. Qed.

Lemma returned_app e1 e2 : returned (e1 ++ e2) = returned e1 ++ returned e2.
Proof. unfold returned. apply omap_app. Qed.

Lemma call_cb_ret_returned t this args st v :
  result (call_cb invoke t this args st) = Ret v →
  returned (history (call_cb invoke t this args st)) = [v].
Proof.
  unfold call_cb. destruct (task_cb t); try discriminate.
  destruct (invoke _ _ _ _) as [[o s] e]. unfold result, history. simpl.
  by intros ->.
Qed.

(** When the loop returns, it returns the last truthy value the
    callbacks returned, and the initial [taskReturn] when none did. *)
Lemma emit_loop_last_truthy tasks args ctx tr st r :
  result (emit_loop invoke tasks args ctx tr st) = Ret r →
  r = last_truthy tr (returned (history (emit_loop invoke tasks args ctx tr st))).
Proof.
  revert ctx tr st. induction tasks as [|t rest IH]; intros ctx tr st.
  - simpl. unfold result, ret. simpl. congruence.
  - rewrite emit_loop_cons. cbv zeta.
    set (ctx' := if truthy ctx then ctx else _).
    set (this := if truthy ctx' then ctx' else _).
    pose proof (call_cb_ret_returned t this args st) as Hr.
    destruct (call_cb invoke t this args st) as [[[v|e| |] st1] ev1];
      unfold history, result in *; simpl in *; try discriminate.
    specialize (Hr v eq_refl).
    destruct (truthy (task_once t)); simpl; [discriminate|].
    destruct (truthy (task_stop t)); simpl.
    { rewrite Hr. unfold last_truthy. simpl. congruence. }
    specialize (IH ctx' (if truthy v then v else tr) st1).
    destruct (emit_loop invoke rest args ctx' _ st1) as [[o2 st2] ev2].
    simpl in *. intros Ho. rewrite returned_app, last_truthy_app, Hr.
    by apply IH.
Qed.

Lemma last_truthy_cases d vs :
  last_truthy d vs = d ∨ truthy (last_truthy d vs) = true.
Proof.
  revert d. induction vs as [|v vs IH]; intros d; [by left|].
  unfold last_truthy in *. simpl. destruct (truthy v) eqn:E.
  - right. destruct (IH v) as [-> | H]; done.
  - apply IH.
Qed.

(** So a value the loop returns is the initial one or truthy. *)
Lemma emit_loop_result_cases tasks args ctx tr st r :
  result (emit_loop invoke tasks args ctx tr st) = Ret r →
  r = tr ∨ truthy r = true.
Proof.
  intros H. apply emit_loop_last_truthy in H. rewrite H.
  apply last_truthy_cases.
Qed.
End Loop.

(** ** Early stop *)

(** X18. In every run of [#emit], a task with [stop] set is the last
    one whose callback is called: the callbacks called are an initial
    part of the sorted array that ends at that task at the latest. In the
    scenario [on('t', cb1, {sort:-1}); on('t', cb2, {sort:1, stop:1});
    on('t', cb3, {sort:2}); emit('t')] the callbacks called are cb1 and
    then cb2 (cb2 only if cb1 does not throw), and never cb3. *)
Theorem stop_halts_emit :
  (∀ invoke q args ctx st pre t post,
     array_sort sortTasksByPriority q = pre ++ t :: post →
     truthy (task_stop t) = true →
     invoked (history (priv_emit invoke (VArr q) args ctx st)) `prefix_of` pre ++ [t])
  ∧
  (∀ impl fuel,
     let t1 := Task 0 "t" cb1 (-1) (VNum 0) (VNum 0) VUndef in
     let t2 := Task 1 "t" cb2 1 (VNum 1) (VNum 0) VUndef in
     let t3 := Task 2 "t" cb3 2 (VNum 0) (VNum 0) VUndef in
     let st := final (stop_scenario init) in
     let r := emit impl (S fuel) [VStr "t"] st in
     queue st = [t1; t2; t3]
     ∧ invoked (history r)
       = t1 :: match impl 1 (VTask t1) [] with Normal _ => [t2] | Abrupt _ => [] end
     ∧ result r
       = match impl 1 (VTask t1) [], impl 2 (VTask t1) [] with
         | Normal v1, Normal v2 => Ret (last_truthy VUndef [v1; v2])
         | Normal _, Abrupt e | Abrupt e, _ => Throw (Thrown e)
         end).
Proof.
  split.
  - intros invoke q args ctx st pre t post Hq Hstop. simpl. rewrite Hq.
    by apply emit_loop_stop.
  - intros impl fuel. cbv zeta. split; [reflexivity|].
    unfold emit. rewrite emit_with_string.
    change (selected "t" (queue (final (stop_scenario init))))
      with [Task 0 "t" cb1 (-1) (VNum 0) (VNum 0) VUndef;
            Task 1 "t" cb2 1 (VNum 1) (VNum 0) VUndef;
            Task 2 "t" cb3 2 (VNum 0) (VNum 0) VUndef].
    unfold history, result. simpl. unfold bind, call_cb. simpl.
    destruct (impl 1 _ _) as [v1|e1]; simpl; [|done].
    destruct (impl 2 _ _) as [v2|e2]; simpl; [|done].
    unfold last_truthy. simpl. by destruct (truthy v2), (truthy v1).
Qed.

Lemma stop_halts_emit_witness :
  let impl := λ (_ : nat) (_ : value) (_ : list value), Normal VUndef in
  let t1 := Task 0 "t" cb1 (-1) (VNum 0) (VNum 0) VUndef in
  let t2 := Task 1 "t" cb2 1 (VNum 1) (VNum 0) VUndef in
  let t3 := Task 2 "t" cb3 2 (VNum 0) (VNum 0) VUndef in
  array_sort sortTasksByPriority [t3; t1; t2] = [t1] ++ t2 :: [t3]
  ∧ truthy (task_stop t2) = true
  ∧ invoked (history (priv_emit (call impl 1) (VArr [t3; t1; t2]) [] VNull init))
      `prefix_of` [t1] ++ [t2].
Proof.
  cbv zeta. split; [reflexivity|]. split; [reflexivity|].
  apply (proj1 stop_halts_emit _ _ _ _ _ _ _
           [Task 2 "t" cb3 2 (VNum 0) (VNum 0) VUndef]); reflexivity.
Defined.

(** ** Registration *)

Lemma on_run topic cb o st :
  on topic cb o st
  = (Ret (VTask (make_task (fresh st) topic cb o)),
     {| queue := queue st ++ [make_task (fresh st) topic cb o];
        instances := instances st; fresh := S (fresh st) |}, []).
Proof. reflexivity. Qed.





(** ** Order of execution *)

Section Quiet.
Variable impl : nat → value → list value → completion.

(** Over quiet tasks the loop calls every callback and returns. *)
Lemma emit_loop_quiet n tasks args ctx tr st :
  Forall (quiet impl) tasks →
  invoked (history (emit_loop (call impl (S n)) tasks args ctx tr st)) = tasks
  ∧ final (emit_loop (call impl (S n)) tasks args ctx tr st) = st
  ∧ ∃ v, result (emit_loop (call impl (S n)) tasks args ctx tr st) = Ret v.
Proof.
  intros H. revert ctx tr st.
  induction H as [|t rest [(id & Hcb & Hret) [Hstop Honce]] _ IH]; intros ctx tr st.
  - simpl. unfold history, final, result, ret. simpl. eauto.
  - rewrite emit_loop_cons. cbv zeta.
    set (ctx' := if truthy ctx then ctx else _).
    set (this := if truthy ctx' then ctx' else _).
    unfold call_cb. rewrite Hcb. simpl.
    destruct (Hret this args) as [v ->]. simpl.
    rewrite Honce, Hstop.
    specialize (IH ctx' (if truthy v then v else tr) st).
    destruct (emit_loop _ rest args ctx' _ st) as [[o2 st2] ev2].
    unfold history, final, result in *. simpl in *.
    destruct IH as (-> & -> & Hv). auto.
Qed.
End Quiet.



(** ** No operation removes a task *)

Lemma grows_refl st : grows st st.
Proof. split; [done|]. intros name i Hi. by exists i. Qed.

Lemma grows_trans st1 st2 st3 : grows st1 st2 → grows st2 st3 → grows st1 st3.
Proof.
  intros [Hq1 Hi1] [Hq2 Hi2]. split; [by etrans|].
  intros name i Hi. destruct (Hi1 name i Hi) as (i' & Hi' & Hp).
  destruct (Hi2 name i' Hi') as (i'' & Hi'' & Hp'). exists i''. split; [done|by etrans].
Qed.

Lemma extending_ret {A} (a : A) : extending (ret a).
Proof. intros st. apply grows_refl. Qed.

Lemma extending_throw {A} e : extending (@throw A e).
Proof. intros st. apply grows_refl. Qed.

Lemma extending_unsupported {A} : extending (@unsupported A).
Proof. intros st. apply grows_refl. Qed.

Lemma extending_bind {A B} (m : M A) (k : A → M B) :
  extending m → (∀ a, extending (k a)) → extending (bind m k).
Proof.
  intros Hm Hk st. specialize (Hm st). unfold bind, final in *.
  destruct (m st) as [[[a|e| |] st1] ev1]; simpl in *; try done.
  specialize (Hk a st1). unfold final in Hk.
  destruct (k a st1) as [[o st2] ev2]. simpl in *. by eapply grows_trans.
Qed.

Lemma extending_alloc : extending alloc.
Proof. intros st. split; [done|]. intros name i Hi. by exists i. Qed.

Lemma extending_read_queue q : extending (read_queue q).
Proof.
  intros st. destruct q as [|name]; simpl; [apply grows_refl|].
  unfold read_queue. destruct (instances st !! name); apply grows_refl.
Qed.

Lemma extending_push q t : extending (push q t).
Proof.
  intros st. destruct q as [|name]; unfold push.
  - split; simpl; [by apply prefix_app_r|]. intros name i Hi. by exists i.
  - destruct (instances st !! name) as [i0|] eqn:E; [|apply grows_refl].
    split; [done|]. unfold final. simpl. intros name' i Hi.
    destruct (decide (name = name')) as [<-|Hne].
    + rewrite lookup_insert_eq. eexists. split; [done|]. simpl.
      rewrite E in Hi. injection Hi as <-. by apply prefix_app_r.
    + rewrite lookup_insert_ne by done. by exists i.
Qed.

Lemma extending_priv_on q topic cb o : extending (priv_on q topic cb o).
Proof.
  unfold priv_on. apply extending_bind; [apply extending_alloc|]. intros ref.
  apply extending_bind; [apply extending_push|]. intros _. apply extending_ret.
Qed.

Lemma extending_on_values q topic cb o : extending (on_values q topic cb o).
Proof.
  unfold on_values.
  destruct topic; try apply extending_unsupported.
  destruct (spread_opts o); [apply extending_priv_on|apply extending_unsupported].
Qed.

Lemma extending_priv_filter filterQueue topic :
  extending (priv_filter filterQueue topic).
Proof.
  unfold priv_filter.
  destruct filterQueue; try apply extending_throw; try apply extending_unsupported.
  destruct (filter_tasks q topic); [apply extending_ret|apply extending_unsupported].
Qed.

Lemma prefix_submseteq {A} (l1 l2 : list A) : l1 `prefix_of` l2 → l1 ⊆+ l2.
Proof. intros [k ->]. by apply submseteq_inserts_r. Qed.

Lemma grows_keeps st st' : grows st st' → keeps st st'.
Proof.
  intros [Hq Hi]. split; [by apply prefix_submseteq|].
  intros name i Hn. destruct (Hi name i Hn) as (i' & Hi' & Hp).
  exists i'. split; [done|]. by apply prefix_submseteq.
Qed.

Lemma extending_keeping {A} (m : M A) : extending m → keeping m.
Proof. intros H st. apply grows_keeps, H. Qed.

Lemma keeps_refl st : keeps st st.
Proof. apply grows_keeps, grows_refl. Qed.

Lemma keeps_trans st1 st2 st3 : keeps st1 st2 → keeps st2 st3 → keeps st1 st3.
Proof.
  intros [Hq1 Hi1] [Hq2 Hi2]. split; [by etrans|].
  intros name i Hi. destruct (Hi1 name i Hi) as (i' & Hi' & Hp).
  destruct (Hi2 name i' Hi') as (i'' & Hi'' & Hp'). exists i''. split; [done|by etrans].
Qed.

Lemma keeping_ret {A} (a : A) : keeping (ret a).
Proof. intros st. apply keeps_refl. Qed.

Lemma keeping_throw {A} e : keeping (@throw A e).
Proof. intros st. apply keeps_refl. Qed.

Lemma keeping_unsupported {A} : keeping (@unsupported A).
Proof. intros st. apply keeps_refl. Qed.

Lemma keeping_bind {A B} (m : M A) (k : A → M B) :
  keeping m → (∀ a, keeping (k a)) → keeping (bind m k).
Proof.
  intros Hm Hk st. specialize (Hm st). unfold bind, final in *.
  destruct (m st) as [[[a|e| |] st1] ev1]; simpl in *; try done.
  specialize (Hk a st1). unfold final in Hk.
  destruct (k a st1) as [[o st2] ev2]. simpl in *. by eapply keeps_trans.
Qed.

Section Keeping.
Variable invoke : callback → value → list value → M value.
Hypothesis invoke_keeping : ∀ f this args, keeping (invoke f this args).

Lemma keeping_call_cb t this args : keeping (call_cb invoke t this args).
Proof.
  intros st. unfold call_cb. destruct (task_cb t); try apply keeps_refl.
  specialize (invoke_keeping f this args st). unfold final in *.
  by destruct (invoke f this args st) as [[o st'] inner].
Qed.

Lemma keeping_emit_loop tasks args ctx tr :
  keeping (emit_loop invoke tasks args ctx tr).
Proof.
  revert ctx tr. induction tasks as [|t rest IH]; intros ctx tr; simpl.
  - apply keeping_ret.
  - apply keeping_bind; [apply keeping_call_cb|]. intros v.
    destruct (truthy (task_once t)); [apply keeping_throw|].
    destruct (truthy (task_stop t)); [apply keeping_ret|]. apply IH.
Qed.

Lemma keeping_priv_emit currentQueue args ctx :
  keeping (priv_emit invoke currentQueue args ctx).
Proof.
  unfold priv_emit.
  destruct currentQueue; try apply keeping_throw; try apply keeping_unsupported.
  apply keeping_emit_loop.
Qed.

Lemma keeping_emit_with args : keeping (emit_with invoke args).
Proof.
  unfold emit_with. destruct (shift_ctx args) as [ctx a1].
  destruct (shift a1) as [topic a2].
  apply keeping_bind; [apply extending_keeping, extending_read_queue|]. intros q.
  apply keeping_bind; [apply extending_keeping, extending_priv_filter|]. intros tq.
  apply keeping_priv_emit.
Qed.

Lemma keeping_inst_emit_with name args : keeping (inst_emit_with invoke name args).
Proof.
  unfold inst_emit_with. destruct (shift_ctx args) as [ctx a1].
  destruct (shift a1) as [topic a2].
  apply keeping_bind; [apply extending_keeping, extending_read_queue|]. intros q.
  apply keeping_bind; [apply keeping_emit_with|]. intros tq.
  apply keeping_priv_emit.
Qed.
End Keeping.

(** Whatever is called, with whatever fuel, no task is taken out of a
    queue. *)
Lemma keeping_call impl fuel f this args : keeping (call impl fuel f this args).
Proof.
  revert f this args. induction fuel as [|n IH]; intros f this args.
  - intros st. apply keeps_refl.
  - destruct f; simpl.
    + intros st. apply keeps_refl.
    + apply extending_keeping, extending_priv_filter.
    + apply keeping_bind; [apply extending_keeping, extending_read_queue|].
      intros q. apply keeping_ret.
    + apply extending_keeping, extending_on_values.
    + by apply keeping_inst_emit_with.
    + by apply keeping_emit_with.
    + apply IH.
Qed.

(** ** One-shot tasks *)

(** An emit that returns has called no task with [once] set: after such
    a task the loop is left by the ReferenceError of [removeTask]. *)
Lemma emit_loop_ret_no_once invoke tasks args ctx tr st v :
  result (emit_loop invoke tasks args ctx tr st) = Ret v →
  Forall (λ t, truthy (task_once t) = false)
         (invoked (history (emit_loop invoke tasks args ctx tr st))).
Proof.
  revert ctx tr st. induction tasks as [|t rest IH]; intros ctx tr st.
  - intros _. constructor.
  - rewrite emit_loop_cons. cbv zeta.
    set (ctx' := if truthy ctx then ctx else _).
    set (this := if truthy ctx' then ctx' else _).
    pose proof (call_cb_ret_history invoke t this args st) as Hr.
    destruct (call_cb invoke t this args st) as [[[r|e| |] st1] ev1];
      unfold history, result in *; simpl in *; try discriminate.
    specialize (Hr r eq_refl).
    destruct (truthy (task_once t)) eqn:Honce; simpl; [discriminate|].
    destruct (truthy (task_stop t)); simpl.
    { intros _. rewrite Hr. by repeat constructor. }
    specialize (IH ctx' (if truthy r then r else tr) st1).
    destruct (emit_loop invoke rest args ctx' _ st1) as [[o2 st2] ev2].
    simpl in *. intros Ho. rewrite invoked_app, Hr. simpl.
    constructor; [done|]. by apply IH.
Qed.

(** C1, on the code. No emit removes a task: after any [xT.emit] the
    core queue and the queue of every instance hold every task they
    held before. After [on('once-task', cb1, {once:1});
    on('once-task', cb2, {sort:1})], [emit('once-task')] calls cb1 and
    then raises ReferenceError at [removeTask(task)] (when cb1 itself
    returns): the task is still in the collection afterwards, cb2 is not
    reached, and a second [emit('once-task')] calls cb1 again. *)
Theorem once_task_is_not_removed :
  (∀ impl fuel args st, keeps st (final (emit impl fuel args st)))
  ∧
  (∀ impl fuel,
     let t1 := Task 0 "once-task" cb1 0 (VNum 0) (VNum 1) VUndef in
     let t2 := Task 1 "once-task" cb2 1 (VNum 0) (VNum 0) VUndef in
     let st := final (once_scenario init) in
     let r := emit impl (S fuel) [VStr "once-task"] st in
     queue st = [t1; t2]
     ∧ invoked (history r) = [t1]
     ∧ result r = match impl 1 (VTask t1) [] with
                  | Normal _ => Throw (ReferenceError "removeTask")
                  | Abrupt e => Throw (Thrown e)
                  end
     ∧ queue (final r) = [t1; t2]
     ∧ invoked (history (emit impl (S fuel) [VStr "once-task"] (final r))) = [t1]).
Proof.
  split.
  - intros impl fuel args st. apply keeping_emit_with.
    intros f this a. apply keeping_call.
  - intros impl fuel. cbv zeta. split; [reflexivity|].
    unfold emit. rewrite !emit_with_string.
    change (selected "once-task" (queue (final (once_scenario init))))
      with [Task 0 "once-task" cb1 0 (VNum 0) (VNum 1) VUndef;
            Task 1 "once-task" cb2 1 (VNum 0) (VNum 0) VUndef].
    run_emit. destruct (impl 1 _ _) as [v1|e1] eqn:E; run_emit;
      rewrite ?E; run_emit; done.
Qed.

(** ** Early stop of a one-shot task *)

(** When the first task with [stop] set also has [once] set, the loop
    does not return: it is left by an error, at the latest by the
    ReferenceError of [removeTask] after that task's callback. *)
Lemma emit_loop_stop_once invoke pre t post args ctx tr st v :
  Forall (λ t', truthy (task_stop t') = false) pre →
  truthy (task_stop t) = true →
  truthy (task_once t) = true →
  result (emit_loop invoke (pre ++ t :: post) args ctx tr st) ≠ Ret v.
Proof.
  intros Hpre Hstop Honce. revert ctx tr st.
  induction Hpre as [|t' pre Ht' _ IH]; intros ctx tr st.
  - rewrite app_nil_l, emit_loop_cons. cbv zeta.
    destruct (call_cb invoke t _ args st) as [[[r|e| |] st1] ev1];
      unfold result; simpl; try done.
    by rewrite Honce.
  - rewrite <- app_comm_cons, emit_loop_cons. cbv zeta.
    set (ctx' := if truthy ctx then ctx else _).
    destruct (call_cb invoke t' _ args st) as [[[r|e| |] st1] ev1];
      unfold result; simpl; try done.
    destruct (truthy (task_once t')); [done|]. rewrite Ht'.
    specialize (IH ctx' (if truthy r then r else tr) st1). unfold result in IH.
    by destruct (emit_loop invoke (pre ++ t :: post) args ctx' _ st1) as [[o2 st2] ev2].
Qed.

(** C7, on the code. A task with [stop] set ends the loop by [break]
    only when [once] is not set on it. With both set,
    [removeTask(task)] is evaluated before the [break] and raises
    ReferenceError: no removal is applied and the emit does not return.
    So an emit whose first task with [stop] set also has [once] set
    never returns a value. After [on('t', cb1, {stop:1, once:1});
    on('t', cb2, {sort:1})], [emit('t')] calls cb1 and then raises
    ReferenceError (when cb1 itself returns): cb2 is not called, the
    task of cb1 is still in the queue, and the emit has no value. *)
Theorem stop_with_once_throws :
  (∀ invoke q args ctx st pre t post v,
     array_sort sortTasksByPriority q = pre ++ t :: post →
     Forall (λ t', truthy (task_stop t') = false) pre →
     truthy (task_stop t) = true →
     truthy (task_once t) = true →
     result (priv_emit invoke (VArr q) args ctx st) ≠ Ret v)
  ∧
  (∀ impl fuel,
     let t1 := Task 0 "t" cb1 0 (VNum 1) (VNum 1) VUndef in
     let t2 := Task 1 "t" cb2 1 (VNum 0) (VNum 0) VUndef in
     let st := final (stop_once_scenario init) in
     let r := emit impl (S fuel) [VStr "t"] st in
     queue st = [t1; t2]
     ∧ truthy (task_stop t1) = true
     ∧ truthy (task_once t1) = true
     ∧ invoked (history r) = [t1]
     ∧ result r = match impl 1 (VTask t1) [] with
                  | Normal _ => Throw (ReferenceError "removeTask")
                  | Abrupt e => Throw (Thrown e)
                  end
     ∧ queue (final r) = [t1; t2]).
Proof.
  split.
  - intros invoke q args ctx st pre t post v Hq Hpre Hstop Honce.
    unfold priv_emit. rewrite Hq. by apply emit_loop_stop_once.
  - intros impl fuel. cbv zeta. split; [reflexivity|].
    split; [reflexivity|]. split; [reflexivity|].
    unfold emit. rewrite !emit_with_string.
    change (selected "t" (queue (final (stop_once_scenario init))))
      with [Task 0 "t" cb1 0 (VNum 1) (VNum 1) VUndef;
            Task 1 "t" cb2 1 (VNum 0) (VNum 0) VUndef].
    run_emit. destruct (impl 1 _ _) as [v1|e1] eqn:E; run_emit;
      rewrite ?E; run_emit; done.
Qed.

(** ** Execution context *)

(** Once the variable [ctx] is truthy, every call of the loop gets it
    as [this]. *)
Lemma emit_loop_this_truthy invoke tasks args ctx tr st :
  truthy ctx = true →
  Forall (λ e, ∃ t res inner, e = Invoked t ctx args res inner)
         (history (emit_loop invoke tasks args ctx tr st)).
Proof.
  intros Hctx. revert tr st. induction tasks as [|t rest IH]; intros tr st.
  - constructor.
  - rewrite emit_loop_cons. cbv zeta. rewrite !Hctx.
    assert (Hcb : Forall (λ e, ∃ t res inner, e = Invoked t ctx args res inner)
                    (history (call_cb invoke t ctx args st))).
    { unfold call_cb. destruct (task_cb t); try constructor.
      destruct (invoke _ _ _ _) as [[o s] e]. repeat constructor. eauto. }
    destruct (call_cb invoke t ctx args st) as [[[r|e| |] st1] ev1];
      unfold history in *; simpl in *; try done.
    destruct (truthy (task_once t)); [done|].
    destruct (truthy (task_stop t)); [done|].
    specialize (IH (if truthy r then r else tr) st1).
    destruct (emit_loop invoke rest args ctx _ st1) as [[o2 st2] ev2].
    simpl in *. by apply Forall_app.
Qed.

(** So all calls of one emit get the context resolved for its first
    task. *)
Lemma emit_loop_this invoke t rest args ctx tr st :
  let this := if truthy ctx then ctx
              else if truthy (task_ctx t) then task_ctx t else VTask t in
  Forall (λ e, ∃ t' res inner, e = Invoked t' this args res inner)
         (history (emit_loop invoke (t :: rest) args ctx tr st)).
Proof.
  cbv zeta. destruct (truthy ctx) eqn:Hctx; [by apply emit_loop_this_truthy|].
  set (this := if truthy (task_ctx t) then task_ctx t else VTask t).
  assert (Hthis : truthy this = true)
    by (unfold this; destruct (truthy (task_ctx t)) eqn:E; done).
  replace (emit_loop invoke (t :: rest) args ctx tr st)
    with (emit_loop invoke (t :: rest) args this tr st);
    [by apply emit_loop_this_truthy|].
  rewrite !emit_loop_cons. cbv zeta. fold this. by rewrite Hctx, !Hthis.
Qed.

(** C2, on the code. In every run of [#emit] all callbacks get the same
    [this]: the context resolved for the first task of the sorted array.
    After [on('t', cb1); on('t', cb2, {sort:1})], [emit('t')] calls cb2
    with the task of cb1 as [this], not with its own task; and after
    [on('t', cb1, {ctx: a}); on('t', cb2, {sort:1, ctx: b})] it calls cb2
    with [a], not with its own [b]. *)
Theorem context_is_carried_over :
  (∀ invoke t rest args ctx tr st,
     let this := if truthy ctx then ctx
                 else if truthy (task_ctx t) then task_ctx t else VTask t in
     Forall (λ e, ∃ t' res inner, e = Invoked t' this args res inner)
            (history (emit_loop invoke (t :: rest) args ctx tr st)))
  ∧
  (∀ impl fuel,
     let t1 := Task 0 "t" cb1 0 (VNum 0) (VNum 0) VUndef in
     let r := emit impl (S fuel) [VStr "t"] (final (plain_scenario init)) in
     let r' := emit impl (S fuel) [VStr "t"] (final (bound_scenario init)) in
     user_calls (history r)
     = (1, VTask t1, []) :: match impl 1 (VTask t1) [] with
                            | Normal _ => [(2, VTask t1, [])]
                            | Abrupt _ => []
                            end
     ∧ user_calls (history r')
       = (1, VObj 7, []) :: match impl 1 (VObj 7) [] with
                            | Normal _ => [(2, VObj 7, [])]
                            | Abrupt _ => []
                            end).
Proof.
  split; [exact emit_loop_this|].
  intros impl fuel. cbv zeta. unfold emit. rewrite !emit_with_string.
  change (selected "t" (queue (final (plain_scenario init))))
    with [Task 0 "t" cb1 0 (VNum 0) (VNum 0) VUndef;
          Task 1 "t" cb2 1 (VNum 0) (VNum 0) VUndef].
  change (selected "t" (queue (final (bound_scenario init))))
    with [Task 0 "t" cb1 0 (VNum 0) (VNum 0) (VObj 7);
          Task 1 "t" cb2 1 (VNum 0) (VNum 0) (VObj 8)].
  unfold history. simpl. unfold bind, call_cb. simpl. split.
  - destruct (impl 1 _ _) as [v1|e1]; simpl; [|done].
    by destruct (impl 2 _ _).
  - destruct (impl 1 _ _) as [v1|e1]; simpl; [|done].
    by destruct (impl 2 _ _).
Qed.

(** ** The value of an emit *)

(** X17. When an emit with a string topic returns, its value is the
    last truthy value returned by the callbacks it called, [undefined]
    when there is none; over quiet tasks it does return. *)
Lemma emit_returns_last_truthy impl fuel topic args st :
  let r := emit impl (S fuel) (VStr topic :: args) st in
  (∀ v, result r = Ret v → v = last_truthy VUndef (returned (history r)))
  ∧ (Forall (quiet impl) (List.filter (topic_is topic) (queue st)) →
     ∃ v, result r = Ret v).
Proof.
  cbv zeta. unfold emit. rewrite emit_with_string. split.
  - apply emit_loop_last_truthy.
  - intros Hq. apply emit_loop_quiet. unfold selected.
    by rewrite array_sort_perm.
Qed.

(** C5, on the code. After [on('t', () => 'a');
    on('t', () => 0, {sort: 1, once: 1})], [emit('t')] calls both
    callbacks, which return 'a' and 0, and then raises ReferenceError at
    [removeTask(task)]: it returns no value, where the last truthy value
    returned is 'a'. *)
Theorem emit_throws_after_once_task fuel :
  let r := emit result_impl (S fuel) [VStr "t"] (final (result_scenario init)) in
  returned (history r) = [VStr "a"; VNum 0]
  ∧ last_truthy VUndef (returned (history r)) = VStr "a"
  ∧ result r = Throw (ReferenceError "removeTask").
Proof. cbv zeta. unfold emit. rewrite emit_with_string. by run_emit. Qed.

(** ** Options that name the positional fields *)

(** C10. The task [on(topic, cb, opts)] stores takes its topic and its
    callback from [opts] when [opts] has a [topic] or a [cb] key, and
    from the positional arguments otherwise; the task is appended to the
    collection and returned. After [on('a', f, {topic: 'b'})] the task
    is selected by topic 'b' and not by topic 'a': [emit('b')] calls [f],
    [emit('a')] calls nothing. *)
Theorem opts_override_topic_and_cb :
  (∀ topic cb o st,
     let t := Task (fresh st) (default topic (o_topic o)) (default cb (o_cb o))
                   (default 0%Z (o_sort o)) (default (VNum 0) (o_stop o))
                   (default (VNum 0) (o_once o)) (default VUndef (o_ctx o)) in
     result (on topic cb o st) = Ret (VTask t)
     ∧ queue (final (on topic cb o st)) = queue st ++ [t])
  ∧
  (∀ impl fuel,
     let st := final (on "a" cb1 (Opts (Some "b") None None None None None) init) in
     let t := Task 0 "b" cb1 0 (VNum 0) (VNum 0) VUndef in
     queue st = [t]
     ∧ filter_tasks (queue st) (VStr "b") = Some [t]
     ∧ filter_tasks (queue st) (VStr "a") = Some []
     ∧ invoked (history (emit impl (S fuel) [VStr "b"] st)) = [t]
     ∧ emit impl (S fuel) [VStr "a"] st = (Ret VUndef, st, [])).
Proof.
  split.
  - intros topic cb o st. cbv zeta. by rewrite on_run.
  - intros impl fuel. cbv zeta. repeat split; try reflexivity.
    unfold emit. rewrite emit_with_string. run_emit.
    by destruct (impl 1 _ _).
Qed.

(** ** Construction *)

Lemma register_run name l st :
  register name l st
  = (Ret tt,
     {| queue := queue st ++ feature_tasks (fresh st) name l;
        instances := instances st; fresh := length l + fresh st |}, []).
Proof.
  revert st. induction l as [|[prop action] l IH]; intros st; simpl.
  - unfold ret. rewrite app_nil_r. by destruct st.
  - unfold bind. rewrite on_run, IH. simpl.
    rewrite <- app_assoc. simpl. do 3 f_equal. lia.
Qed.

(** A name the registry holds: the stored handle comes back, nothing is
    registered, and a notice is logged. *)
Lemma construct_again name features st i :
  instances st !! name = Some i →
  construct name features st
  = (Ret (VProxy (i_handle i) name), st, [ConsoleLog "Return existing instance"]).
Proof. intros H. unfold construct, instances_get. by rewrite H. Qed.

(** A name neither the registry nor [Object.prototype] holds: the
    features are registered and a new handle is stored. *)
Lemma construct_first name features st :
  instances st !! name = None →
  inherited name = None →
  let eff := effective name features in
  let h := length (entries eff) + fresh st in
  construct name features st
  = (Ret (VProxy h name),
     {| queue := queue st ++ feature_tasks (fresh st) name (entries eff);
        instances := <[name := {| i_handle := h; i_features := keys eff;
                                  i_queue := [] |}]> (instances st);
        fresh := S h |}, []).
Proof.
  intros H1 H2. cbv zeta. unfold construct, instances_get. rewrite H1, H2. simpl.
  unfold bind. by rewrite register_run.
Qed.

(** X14. For a name that neither the registry nor [Object.prototype]
    holds, construction is idempotent: the second request returns the
    handle of the first and changes nothing, whatever features it
    passes, and logs the notice. *)
Lemma construct_twice name f1 f2 st :
  instances st !! name = None →
  inherited name = None →
  let r1 := construct name f1 st in
  let r2 := construct name f2 (final r1) in
  result r2 = result r1
  ∧ final r2 = final r1
  ∧ history r2 = [ConsoleLog "Return existing instance"].
Proof.
  intros H1 H2. cbv zeta. rewrite (construct_first name f1 st H1 H2).
  unfold final, result, history. simpl.
  match goal with
  | |- context [construct name f2 ?s] =>
      rewrite (construct_again name f2 s _ (lookup_insert_eq _ _ _))
  end.
  done.
Qed.

(** C8, on the code. [new xT('constructor', features)] on the fresh
    class finds [Object] under [#instances['constructor']], inherited
    from [Object.prototype]: it logs the notice for an existing instance
    and returns [Object]; no instance is created or stored and no feature
    is registered. *)
Theorem construct_inherited_name features :
  let r := construct "constructor" features init in
  result r = Ret (VNative ObjectConstructor)
  ∧ history r = [ConsoleLog "Return existing instance"]
  ∧ instances (final r) !! "constructor" = None
  ∧ queue (final r) = [].
Proof. done. Qed.

Lemma construct_inherited name n features st :
  instances st !! name = None →
  inherited name = Some n →
  construct name features st
  = (Ret (VNative n), st, [ConsoleLog "Return existing instance"]).
Proof. intros H1 H2. unfold construct, instances_get. by rewrite H1, H2. Qed.

(** ** The feature object *)

Lemma obj_get_set k k' v o :
  obj_get k (obj_set k' v o) = if String.eqb k k' then Some v else obj_get k o.
Proof.
  induction o as [|[k1 v1] r IH]; simpl; [done|].
  destruct (String.eqb_spec k' k1) as [->|Hne]; simpl.
  - by destruct (String.eqb k k1).
  - rewrite IH. destruct (String.eqb_spec k k') as [->|Hne'].
    + by destruct (String.eqb_spec k' k1).
    + done.
Qed.

Lemma obj_get_Some k v o : obj_get k o = Some v → (k, v) ∈ o.
Proof.
  induction o as [|[k1 v1] r IH]; simpl; [done|].
  destruct (String.eqb_spec k k1) as [->|Hne].
  - intros [= ->]. left.
  - intros H. right. auto.
Qed.

Lemma obj_get_None k o : obj_get k o = None → k ∉ o.*1.
Proof.
  induction o as [|[k1 v1] r IH]; simpl; [intros _; apply not_elem_of_nil|].
  destruct (String.eqb_spec k k1) as [->|Hne]; [done|].
  intros H. apply not_elem_of_cons. auto.
Qed.

Lemma fold_obj_set_notin k l dst :
  k ∉ l.*1 →
  obj_get k (fold_left (λ acc kv, obj_set kv.1 kv.2 acc) l dst) = obj_get k dst.
Proof.
  revert dst. induction l as [|[k1 v1] l IH]; intros dst Hk; simpl; [done|].
  simpl in Hk. apply not_elem_of_cons in Hk as [Hne Hk].
  rewrite IH by done. rewrite obj_get_set.
  by destruct (String.eqb_spec k k1).
Qed.

Lemma fold_obj_set_in k v l dst :
  NoDup l.*1 → (k, v) ∈ l →
  obj_get k (fold_left (λ acc kv, obj_set kv.1 kv.2 acc) l dst) = Some v.
Proof.
  revert dst. induction l as [|[k1 v1] l IH]; intros dst Hnd Hin; simpl.
  - by apply elem_of_nil in Hin.
  - simpl in Hnd. apply NoDup_cons in Hnd as [Hk1 Hnd].
    apply elem_of_cons in Hin as [[= -> ->]|Hin].
    + rewrite fold_obj_set_notin by done. rewrite obj_get_set.
      by rewrite String.eqb_refl.
    + by apply IH.
Qed.

Lemma filter_partition_perm {A} (f : A → bool) (l : list A) :
  List.filter f l ++ List.filter (λ x, negb (f x)) l ≡ₚ l.
Proof.
  induction l as [|x l IH]; simpl; [done|].
  destruct (f x); simpl.
  - by rewrite IH.
  - rewrite <- Permutation_middle. by rewrite IH.
Qed.

(** [Object.entries] lists every own property once. *)
Lemma entries_perm o : entries o ≡ₚ o.
Proof.
  unfold entries. rewrite array_sort_perm. apply filter_partition_perm.
Qed.

Lemma obj_get_spread k src dst :
  NoDup src.*1 →
  obj_get k (spread src dst)
  = match obj_get k src with
    | Some v => Some v
    | None => obj_get k dst
    end.
Proof.
  intros Hnd. unfold spread. destruct (obj_get k src) as [v|] eqn:E.
  - apply fold_obj_set_in.
    + by rewrite entries_perm.
    + rewrite entries_perm. by apply obj_get_Some.
  - apply fold_obj_set_notin. rewrite entries_perm. by apply obj_get_None.
Qed.

(** C9. In the feature object the constructor builds from supplied
    features (an object: its keys are distinct), [queue], [on] and
    [emit] are the closures of the class whatever was supplied under
    those names, [filter] is the supplied [filter] when there is one and
    [#filter] otherwise, and every other supplied feature is kept. *)
Theorem effective_features_precedence name features :
  NoDup features.*1 →
  obj_get "queue" (effective name features) = Some (VFun (QueueGetter name))
  ∧ obj_get "on" (effective name features) = Some (VFun (BoundOn name))
  ∧ obj_get "emit" (effective name features) = Some (VFun (InstEmit name))
  ∧ obj_get "filter" (effective name features)
    = Some (default (VFun DefaultFilter) (obj_get "filter" features))
  ∧ (∀ k, includes ["filter"; "queue"; "on"; "emit"] k = false →
       obj_get k (effective name features) = obj_get k features).
Proof.
  intros Hnd. unfold effective.
  repeat split; rewrite ?obj_get_set; simpl; try reflexivity.
  - rewrite obj_get_spread by done. simpl. by destruct (obj_get "filter" features).
  - intros k Hk. unfold includes in Hk. simpl in Hk.
    rewrite !obj_get_set.
    destruct (String.eqb k "emit"), (String.eqb k "on"), (String.eqb k "queue"),
      (String.eqb k "filter") eqn:Ef; try discriminate.
    rewrite obj_get_spread by done. simpl. rewrite Ef.
    by destruct (obj_get k features).
Qed.

Lemma effective_features_precedence_witness :
  let features := [("filter", cb1); ("emit", cb2); ("extra", cb3)] in
  NoDup features.*1
  ∧ obj_get "emit" (effective "u" features) = Some (VFun (InstEmit "u"))
  ∧ obj_get "filter" (effective "u" features) = Some cb1
  ∧ obj_get "extra" (effective "u" features) = Some cb3.
Proof.
  cbv zeta.
  assert (H : NoDup [("filter", cb1); ("emit", cb2); ("extra", cb3)].*1)
    by (apply (bool_decide_unpack _); vm_compute; exact I).
  split; [exact H|].
  destruct (effective_features_precedence "u" _ H) as (_ & _ & He & Hf & Hk).
  split; [exact He|]. split; [exact Hf|].
  exact (Hk "extra" eq_refl).
Defined.

(** ** Emit on an instance *)

Section Instance.
Variable impl : nat → value → list value → completion.

(** The context the loop resolves is truthy, so the [ctx || task.ctx]
    of the call is that context. *)
Lemma this_is_ctx ctx t :
  let ctx' := if truthy ctx then ctx
              else if truthy (task_ctx t) then task_ctx t else VTask t in
  (if truthy ctx' then ctx' else task_ctx t) = ctx'.
Proof.
  cbv zeta. destruct (truthy ctx) eqn:E1; [by rewrite E1|].
  destruct (truthy (task_ctx t)) eqn:E2; [by rewrite E2|done].
Qed.

(** The loop over a single task without [once]. *)
Lemma emit_loop_single invoke t args ctx tr st :
  truthy (task_once t) = false →
  emit_loop invoke [t] args ctx tr st
  = let ctx' := if truthy ctx then ctx
                else if truthy (task_ctx t) then task_ctx t else VTask t in
    match call_cb invoke t (if truthy ctx' then ctx' else task_ctx t) args st with
    | (Ret v, st1, ev1) => (Ret (if truthy v then v else tr), st1, ev1)
    | other => other
    end.
Proof.
  intros Honce. rewrite emit_loop_cons. cbv zeta. rewrite Honce.
  destruct (call_cb _ _ _ _ _) as [[[v|e| |] st1] ev1]; try reflexivity.
  destruct (truthy (task_stop t)); [done|].
  simpl. unfold ret. by rewrite app_nil_r.
Qed.

Lemma priv_emit_array invoke q args ctx :
  priv_emit invoke (VArr q) args ctx
  = emit_loop invoke (array_sort sortTasksByPriority q) args ctx VUndef.
Proof. reflexivity. Qed.

(** The equations of [call]. *)
Lemma call_InstEmit n name this args :
  call impl (S n) (InstEmit name) this args = inst_emit_with (call impl n) name args.
Proof. reflexivity. Qed.

Lemma call_CoreEmit n this args :
  call impl (S n) CoreEmit this args = emit impl n args.
Proof. reflexivity. Qed.

Lemma call_Bind n g this' pre this args :
  call impl (S n) (Bind g this' pre) this args = call impl n g this' (pre ++ args).
Proof. reflexivity. Qed.

(** The closure [emit] of instance [name], step by step. *)
Lemma inst_emit_string invoke name i topic args st :
  instances st !! name = Some i →
  inst_emit_with invoke name (VStr topic :: args) st
  = (let* topicQueue :=
       emit_with invoke [VStr (topic_of name "filter"); VArr (i_queue i); VStr topic] in
     priv_emit invoke topicQueue args VNull) st.
Proof.
  intros Hi. unfold inst_emit_with, shift_ctx, shift. simpl.
  unfold bind at 1, read_queue. rewrite Hi.
  by destruct (bind _ _ st) as [[o s] e].
Qed.

(** With the default filter as the only task on [$name:filter], the
    filtering emit answers the tasks of the local collection whose topic
    is the one asked for. *)
Lemma filter_emit fuel name tf q topic st :
  List.filter (topic_is (topic_of name "filter")) (queue st) = [tf] →
  task_cb tf = VFun DefaultFilter →
  truthy (task_once tf) = false →
  let this := if truthy (task_ctx tf) then task_ctx tf else VTask tf in
  let found := VArr (List.filter (topic_is topic) q) in
  emit_with (call impl (S fuel)) [VStr (topic_of name "filter"); VArr q; VStr topic] st
  = (Ret found, st,
     [Invoked tf this [VArr q; VStr topic] (Ret found) []]).
Proof.
  intros Hq Hcb Honce. cbv zeta. rewrite emit_with_string.
  unfold selected. rewrite Hq, array_sort_singleton.
  rewrite emit_loop_single by done. cbv zeta. simpl truthy.
  unfold call_cb. rewrite Hcb. simpl. rewrite filter_tasks_string.
  unfold ret. simpl. pose proof (this_is_ctx VNull tf) as E. simpl in E.
  by rewrite E.
Qed.

(** C4. The closure [emit] of the instance [name], called with a topic
    and arguments, emits [$name:filter] on the core registry with the
    local collection and the topic as arguments, and runs [#emit] with
    the call's arguments (and no context) on the value that emit
    returns. When the registry holds on [$name:emit] and [$name:filter]
    just the tasks of the constructor, with the default filter,
    [u.emit(topic, ...args)] on the handle runs as [#emit] on the tasks
    of the local collection with that topic, with arguments [args]: same
    result, same final state, and the calls of that run in its history,
    after the call of the filter. *)
Theorem instance_emit_dispatches name i te tf topic args fuel st :
  instances st !! name = Some i →
  includes (i_features i) "emit" = true →
  List.filter (topic_is (topic_of name "emit")) (queue st) = [te] →
  task_cb te = VFun (InstEmit name) →
  truthy (task_once te) = false →
  List.filter (topic_is (topic_of name "filter")) (queue st) = [tf] →
  task_cb tf = VFun DefaultFilter →
  truthy (task_once tf) = false →
  let this_e := if truthy (task_ctx te) then task_ctx te else VTask te in
  let this_f := if truthy (task_ctx tf) then task_ctx tf else VTask tf in
  let filter_args := [VArr (i_queue i); VStr topic] in
  let found := VArr (List.filter (topic_is topic) (i_queue i)) in
  let run := priv_emit (call impl (S fuel)) found args VNull st in
  let r := method impl (4 + fuel) name "emit" (VStr topic :: args) st in
  call impl (S (S fuel)) (InstEmit name) this_e (VStr topic :: args) st
  = (let* topicQueue :=
       emit impl (S fuel) (VStr (topic_of name "filter") :: filter_args) in
     priv_emit (call impl (S fuel)) topicQueue args VNull) st
  ∧ emit impl (S fuel) (VStr (topic_of name "filter") :: filter_args) st
    = (Ret found, st, [Invoked tf this_f filter_args (Ret found) []])
  ∧ result r = result run
  ∧ final r = final run
  ∧ history r
    = [Invoked te this_e (VStr topic :: args) (result run)
         (Invoked tf this_f filter_args (Ret found) [] :: history run)].
Proof.
  intros Hi Hemit Hqe Hcbe Honcee Hqf Hcbf Honcef. cbv zeta.
  assert (Hclosure :
    call impl (S (S fuel)) (InstEmit name)
         (if truthy (task_ctx te) then task_ctx te else VTask te)
         (VStr topic :: args) st
    = (let* topicQueue :=
         emit impl (S fuel)
              [VStr (topic_of name "filter"); VArr (i_queue i); VStr topic] in
       priv_emit (call impl (S fuel)) topicQueue args VNull) st).
  { rewrite call_InstEmit. by apply inst_emit_string. }
  assert (Hfilter := filter_emit fuel name tf (i_queue i) topic st Hqf Hcbf Honcef).
  cbv zeta in Hfilter.
  split; [exact Hclosure|]. split; [exact Hfilter|].
  assert (Hmethod :
    method impl (4 + fuel) name "emit" (VStr topic :: args) st
    = let '(o, st1, ev) :=
        priv_emit (call impl (S fuel))
                  (VArr (List.filter (topic_is topic) (i_queue i))) args VNull st in
      (o, st1,
       [Invoked te (if truthy (task_ctx te) then task_ctx te else VTask te)
          (VStr topic :: args) o
          (Invoked tf (if truthy (task_ctx tf) then task_ctx tf else VTask tf)
             [VArr (i_queue i); VStr topic]
             (Ret (VArr (List.filter (topic_is topic) (i_queue i)))) [] :: ev)])).
  { unfold method, get. unfold bind at 1. rewrite Hi, Hemit.
    cbv beta iota. unfold apply, feature_invoker.
    change (4 + fuel) with (S (S (S (S fuel)))).
    rewrite call_Bind, call_CoreEmit. unfold emit at 1. simpl app.
    rewrite emit_with_string.
    unfold selected. rewrite Hqe, array_sort_singleton.
    rewrite emit_loop_single by done. cbv zeta.
    pose proof (this_is_ctx VNull te) as Ethis. cbv zeta in Ethis.
    rewrite Ethis. change (truthy VNull) with false. cbv iota.
    unfold call_cb at 1. rewrite Hcbe.
    rewrite Hclosure. unfold bind at 1. unfold emit. rewrite Hfilter.
    pose proof (emit_loop_result_cases (call impl (S fuel))
                  (array_sort sortTasksByPriority
                     (List.filter (topic_is topic) (i_queue i))) args VNull VUndef st)
      as Hcases.
    rewrite priv_emit_array.
    destruct (emit_loop (call impl (S fuel)) _ args VNull VUndef st)
      as [[[v|e| |] st1] ev1]; unfold result in *; cbn [fst snd app]; try done.
    by destruct (Hcases v eq_refl) as [-> | ->]. }
  rewrite Hmethod.
  by destruct (priv_emit _ _ _ _ _) as [[o st1] ev].
Qed.
End Instance.

Lemma instance_emit_dispatches_witness :
  let impl := λ (_ : nat) (_ : value) (_ : list value), Normal (VStr "done") in
  let st := final (instance_scenario impl init) in
  let te := Task 3 "$u:emit" (VFun (InstEmit "u")) 0 (VNum 0) (VNum 0) VUndef in
  let tf := Task 0 "$u:filter" (VFun DefaultFilter) 0 (VNum 0) (VNum 0) VUndef in
  let t := Task 5 "topic" cb1 0 (VNum 0) (VNum 0) VUndef in
  let i := {| i_handle := 4; i_features := ["filter"; "queue"; "on"; "emit"];
              i_queue := [t] |} in
  let r := method impl 4 "u" "emit" [VStr "topic"; VNum 1; VNum 2] st in
  instances st !! "u" = Some i
  ∧ includes (i_features i) "emit" = true
  ∧ List.filter (topic_is (topic_of "u" "emit")) (queue st) = [te]
  ∧ task_cb te = VFun (InstEmit "u")
  ∧ truthy (task_once te) = false
  ∧ List.filter (topic_is (topic_of "u" "filter")) (queue st) = [tf]
  ∧ task_cb tf = VFun DefaultFilter
  ∧ truthy (task_once tf) = false
  ∧ history r
    = [Invoked te (VTask te) [VStr "topic"; VNum 1; VNum 2] (Ret (VStr "done"))
         [Invoked tf (VTask tf) [VArr [t]; VStr "topic"] (Ret (VArr [t])) [];
          Invoked t (VTask t) [VNum 1; VNum 2] (Ret (VStr "done")) []]]
  ∧ user_calls (history r) = [(1, VTask t, [VNum 1; VNum 2])].
Proof.
  cbv zeta.
  do 8 (split; [vm_compute; reflexivity|]).
  split; [|reflexivity].
  refine (eq_trans
    (proj2 (proj2 (proj2 (proj2
      (instance_emit_dispatches (λ _ _ _, Normal (VStr "done")) "u"
         {| i_handle := 4; i_features := ["filter"; "queue"; "on"; "emit"];
            i_queue := [Task 5 "topic" cb1 0 (VNum 0) (VNum 0) VUndef] |}
         (Task 3 "$u:emit" (VFun (InstEmit "u")) 0 (VNum 0) (VNum 0) VUndef)
         (Task 0 "$u:filter" (VFun DefaultFilter) 0 (VNum 0) (VNum 0) VUndef)
         "topic" [VNum 1; VNum 2] 0 _
         _ _ _ _ _ _ _ _))))) _);
    vm_compute; reflexivity.
Defined.

(** ** Properties of the handle that are no features *)

Section Handle.
Variable impl : nat → value → list value → completion.

(** For a property other than [name] that is no key of the feature
    object the trap answers the [emit] invoker of the handle bound to
    the property name as its [this]. *)
Lemma get_unknown name i prop st :
  instances st !! name = Some i →
  includes (i_features i) prop = false →
  includes (i_features i) "emit" = true →
  String.eqb prop "name" = false →
  get name prop st
  = (Ret (VFun (Bind (feature_invoker name "emit") (VStr prop) [])), st, []).
Proof. intros Hi Hp He Hn. unfold get. by rewrite Hi, Hp, He, Hn. Qed.

(** Calling it is calling [emit] on the handle with the same arguments:
    the property name is no argument of the emit. *)
Lemma method_unknown fuel name i prop args st :
  instances st !! name = Some i →
  includes (i_features i) prop = false →
  includes (i_features i) "emit" = true →
  String.eqb prop "name" = false →
  method impl (S fuel) name prop args st = method impl fuel name "emit" args st.
Proof.
  intros Hi Hp He Hn. unfold method, bind.
  rewrite (get_unknown name i prop st Hi Hp He Hn).
  unfold get. rewrite Hi, He. unfold apply.
  rewrite call_Bind. simpl app.
  destruct fuel as [|n]; [done|].
  unfold feature_invoker. by rewrite !call_Bind.
Qed.
End Handle.

(** C3, on the code. After [u = new xT('u', {}); u.on('foo', cb1);
    u.on('bar', cb2)], the property [u.foo] is the [emit] invoker of the
    handle with 'foo' bound as its [this], which that invoker ignores:
    [u.foo('bar', 1)] runs as [u.emit('bar', 1)] and calls cb2 with (1).
    An emit with 'foo' supplied as the topic, [u.emit('foo', 'bar', 1)],
    calls cb1 with ('bar', 1). No error is raised. *)
Theorem unknown_property_drops_its_name impl fuel :
  let st := final (fallback_scenario impl init) in
  let t_foo := Task 5 "foo" cb1 0 (VNum 0) (VNum 0) VUndef in
  let t_bar := Task 6 "bar" cb2 0 (VNum 0) (VNum 0) VUndef in
  let r := method impl (5 + fuel) "u" "foo" [VStr "bar"; VNum 1] st in
  result (get "u" "foo" st)
  = Ret (VFun (Bind (feature_invoker "u" "emit") (VStr "foo") []))
  ∧ r = method impl (4 + fuel) "u" "emit" [VStr "bar"; VNum 1] st
  ∧ user_calls (history r) = [(2, VTask t_bar, [VNum 1])]
  ∧ user_calls (history (method impl (4 + fuel) "u" "emit"
                           [VStr "foo"; VStr "bar"; VNum 1] st))
    = [(1, VTask t_foo, [VStr "bar"; VNum 1])].
Proof.
  cbv zeta. split; [vm_compute; reflexivity|].
  split; [|split].
  - eapply method_unknown; vm_compute; reflexivity.
  - vm_compute. by destruct (impl 2 _ _).
  - vm_compute. by destruct (impl 1 _ _).
Qed.

(** * Further properties of the class *)

(** ** Emit on the core registry *)

(** [xT.emit(ctx, topic, ...args)] with an object first. *)
Lemma emit_with_ctx_string invoke c topic args st :
  instanceof_Object c = true →
  emit_with invoke (c :: VStr topic :: args) st
  = emit_loop invoke (selected topic (queue st)) args c VUndef st.
Proof.
  intros Hc. unfold emit_with, shift_ctx. rewrite Hc. simpl.
  unfold bind at 1, read_queue. simpl.
  rewrite filter_tasks_string. unfold bind, ret. simpl.
  unfold selected.
  by destruct (emit_loop _ _ _ _ _ _) as [[o s] e].
Qed.

(** X1. An emit of a topic no task is registered for calls nothing,
    changes nothing and returns [undefined], with or without a context
    object in front. *)
Theorem emit_without_match impl fuel c topic args st :
  List.filter (topic_is topic) (queue st) = [] →
  instanceof_Object c = true →
  emit impl fuel (VStr topic :: args) st = (Ret VUndef, st, [])
  ∧ emit impl fuel (c :: VStr topic :: args) st = (Ret VUndef, st, []).
Proof.
  intros Hq Hc. unfold emit.
  rewrite emit_with_string, (emit_with_ctx_string _ c) by done.
  unfold selected. by rewrite Hq.
Qed.

Lemma emit_without_match_witness :
  List.filter (topic_is "t") (queue init) = []
  ∧ instanceof_Object (VObj 7) = true
  ∧ emit (λ _ _ _, Normal VUndef) 0 [VStr "t"; VNum 1] init = (Ret VUndef, init, []).
Proof.
  split; [reflexivity|]. split; [reflexivity|].
  exact (proj1 (emit_without_match (λ _ _ _, Normal VUndef) 0 (VObj 7) "t"
                  [VNum 1] init eq_refl eq_refl)).
Defined.

(** X2. When the first argument of [xT.emit] is an object, it is the
    context: every callback of that emit is called with it as [this],
    and with the arguments that follow the topic. The tasks called are
    an initial part of the tasks of the topic in sorted order. *)
Theorem emit_context_reaches_every_callback impl fuel c topic args st :
  instanceof_Object c = true →
  let r := emit impl fuel (c :: VStr topic :: args) st in
  Forall (λ e, ∃ t res inner, e = Invoked t c args res inner) (history r)
  ∧ invoked (history r) `prefix_of` selected topic (queue st).
Proof.
  intros Hc. cbv zeta. unfold emit. rewrite emit_with_ctx_string by done. split.
  - apply emit_loop_this_truthy. by destruct c as [| | | | | | [] | | | | |].
  - apply emit_loop_prefix.
Qed.

Lemma emit_context_reaches_every_callback_witness :
  let impl := λ (_ : nat) (_ : value) (_ : list value), Normal VUndef in
  let r := emit impl 1 [VObj 7; VStr "t"; VNum 1] (final (plain_scenario init)) in
  instanceof_Object (VObj 7) = true
  ∧ Forall (λ e, ∃ t res inner, e = Invoked t (VObj 7) [VNum 1] res inner) (history r)
  ∧ user_calls (history r) = [(1, VObj 7, [VNum 1]); (2, VObj 7, [VNum 1])].
Proof.
  cbv zeta. split; [reflexivity|]. split; [|reflexivity].
  exact (proj1 (emit_context_reaches_every_callback (λ _ _ _, Normal VUndef) 1
                  (VObj 7) "t" [VNum 1] (final (plain_scenario init)) eq_refl)).
Defined.

Section Failing.
Variable impl : nat → value → list value → completion.

(** Over quiet tasks at the head of the array the loop runs through,
    leaves the state as it is and goes on with the rest. *)
Lemma emit_loop_quiet_app n pre rest args ctx tr st :
  Forall (quiet impl) pre →
  ∃ ctx' tr' evs,
    invoked evs = pre
    ∧ emit_loop (call impl (S n)) (pre ++ rest) args ctx tr st
      = let '(o, st', evs2) := emit_loop (call impl (S n)) rest args ctx' tr' st in
        (o, st', evs ++ evs2).
Proof.
  intros H. revert ctx tr.
  induction H as [|t pre [(id & Hcb & Hret) [Hstop Honce]] _ IH]; intros ctx tr.
  - exists ctx, tr, []. split; [done|]. simpl.
    by destruct (emit_loop _ rest args ctx tr st) as [[o st'] evs2].
  - simpl app. rewrite emit_loop_cons. cbv zeta.
    set (ctx' := if truthy ctx then ctx else _).
    set (this := if truthy ctx' then ctx' else _).
    unfold call_cb. rewrite Hcb.
    change (call impl (S n) (User id) this args st)
      with (of_completion (impl id this args), st, @nil event).
    destruct (Hret this args) as [v ->]. cbn [of_completion].
    rewrite Honce, Hstop.
    destruct (IH ctx' (if truthy v then v else tr)) as (ctx'' & tr'' & evs & Hevs & ->).
    exists ctx'', tr'', (Invoked t this args (Ret v) [] :: evs).
    split; [simpl; by rewrite Hevs|].
    by destruct (emit_loop _ rest args ctx'' tr'' st) as [[o st'] evs2].
Qed.

(** X3. [on] takes any value as callback; the error comes at emit time.
    When the tasks before it in sorted order are quiet and the task [t]
    holds a value that cannot be called (a primitive, a plain object or
    an array), the emit calls the tasks before [t], raises TypeError at
    [t], calls no later task and leaves the state as it was. *)
Theorem emit_not_callable fuel topic args st pre t post :
  selected topic (queue st) = pre ++ t :: post →
  Forall (quiet impl) pre →
  not_callable (task_cb t) = true →
  let r := emit impl (S fuel) (VStr topic :: args) st in
  result r = Throw TypeError
  ∧ invoked (history r) = pre
  ∧ final r = st.
Proof.
  intros Hsel Hpre Hcb. cbv zeta. unfold emit. rewrite emit_with_string, Hsel.
  destruct (emit_loop_quiet_app fuel pre (t :: post) args VNull VUndef st Hpre)
    as (ctx' & tr' & evs & Hevs & ->).
  rewrite emit_loop_cons. cbv zeta. unfold call_cb.
  destruct (task_cb t); try discriminate; unfold result, history, final; simpl;
    by rewrite app_nil_r.
Qed.

(** X4. An error thrown by a callback leaves [xT.emit] with that error:
    when the tasks before [t] in sorted order are quiet and the callback
    of [t] throws [e], the emit calls the tasks up to [t], throws [e],
    calls no later task and leaves the state as it was. *)
Theorem emit_callback_throws fuel topic args st pre t post id e :
  selected topic (queue st) = pre ++ t :: post →
  Forall (quiet impl) pre →
  task_cb t = VFun (User id) →
  (∀ this, impl id this args = Abrupt e) →
  let r := emit impl (S fuel) (VStr topic :: args) st in
  result r = Throw (Thrown e)
  ∧ invoked (history r) = pre ++ [t]
  ∧ final r = st.
Proof.
  intros Hsel Hpre Hcb He. cbv zeta. unfold emit. rewrite emit_with_string, Hsel.
  destruct (emit_loop_quiet_app fuel pre (t :: post) args VNull VUndef st Hpre)
    as (ctx' & tr' & evs & Hevs & ->).
  rewrite emit_loop_cons. cbv zeta. unfold call_cb. rewrite Hcb.
  match goal with
  | |- context [call impl (S fuel) (User id) ?this args st] =>
      change (call impl (S fuel) (User id) this args st)
        with (of_completion (impl id this args), st, @nil event)
  end.
  rewrite He. unfold result, history, final. simpl.
  by rewrite invoked_app, Hevs.
Qed.
End Failing.

Lemma emit_not_callable_witness :
  let impl := λ (_ : nat) (_ : value) (_ : list value), Normal VUndef in
  let t1 := Task 0 "t" cb1 0 (VNum 0) (VNum 0) VUndef in
  let t2 := Task 1 "t" (VStr "no function") 1 (VNum 0) (VNum 0) VUndef in
  let t3 := Task 2 "t" cb3 2 (VNum 0) (VNum 0) VUndef in
  let st := {| queue := [t3; t2; t1]; instances := ∅; fresh := 3 |} in
  let r := emit impl 1 [VStr "t"] st in
  selected "t" (queue st) = [t1] ++ t2 :: [t3]
  ∧ Forall (quiet impl) [t1]
  ∧ not_callable (task_cb t2) = true
  ∧ result r = Throw TypeError
  ∧ invoked (history r) = [t1].
Proof.
  cbv zeta.
  assert (Hq : Forall (quiet (λ _ _ _, Normal VUndef))
                 [Task 0 "t" cb1 0 (VNum 0) (VNum 0) VUndef]).
  { repeat constructor. exists 1. split; [reflexivity|]. intros this a. by exists VUndef. }
  split; [reflexivity|]. split; [exact Hq|]. split; [reflexivity|].
  pose proof (emit_not_callable (λ _ _ _, Normal VUndef) 0 "t" []
                {| queue := [Task 2 "t" cb3 2 (VNum 0) (VNum 0) VUndef;
                             Task 1 "t" (VStr "no function") 1 (VNum 0) (VNum 0) VUndef;
                             Task 0 "t" cb1 0 (VNum 0) (VNum 0) VUndef];
                   instances := ∅; fresh := 3 |}
                [Task 0 "t" cb1 0 (VNum 0) (VNum 0) VUndef]
                (Task 1 "t" (VStr "no function") 1 (VNum 0) (VNum 0) VUndef)
                [Task 2 "t" cb3 2 (VNum 0) (VNum 0) VUndef]
                eq_refl Hq eq_refl) as (H1 & H2 & _).
  split; [exact H1|exact H2].
Defined.

Lemma emit_callback_throws_witness :
  let impl := λ (id : nat) (_ : value) (_ : list value),
                match id with 2 => Abrupt (VStr "boom") | _ => Normal VUndef end in
  let t1 := Task 0 "t" cb1 0 (VNum 0) (VNum 0) VUndef in
  let t2 := Task 1 "t" cb2 1 (VNum 0) (VNum 0) VUndef in
  let t3 := Task 2 "t" cb3 2 (VNum 0) (VNum 0) VUndef in
  let st := {| queue := [t3; t2; t1]; instances := ∅; fresh := 3 |} in
  let r := emit impl 1 [VStr "t"] st in
  selected "t" (queue st) = [t1] ++ t2 :: [t3]
  ∧ Forall (quiet impl) [t1]
  ∧ task_cb t2 = VFun (User 2)
  ∧ (∀ this, impl 2 this [] = Abrupt (VStr "boom"))
  ∧ result r = Throw (Thrown (VStr "boom"))
  ∧ invoked (history r) = [t1] ++ [t2].
Proof.
  cbv zeta.
  set (impl := λ (id : nat) (_ : value) (_ : list value),
                 match id with 2 => Abrupt (VStr "boom") | _ => Normal VUndef end).
  assert (Hq : Forall (quiet impl) [Task 0 "t" cb1 0 (VNum 0) (VNum 0) VUndef]).
  { repeat constructor. exists 1. split; [reflexivity|]. intros this a. by exists VUndef. }
  assert (He : ∀ this : value, impl 2 this [] = Abrupt (VStr "boom")) by reflexivity.
  split; [reflexivity|]. split; [exact Hq|]. split; [reflexivity|]. split; [exact He|].
  pose proof (emit_callback_throws impl 0 "t" []
                {| queue := [Task 2 "t" cb3 2 (VNum 0) (VNum 0) VUndef;
                             Task 1 "t" cb2 1 (VNum 0) (VNum 0) VUndef;
                             Task 0 "t" cb1 0 (VNum 0) (VNum 0) VUndef];
                   instances := ∅; fresh := 3 |}
                [Task 0 "t" cb1 0 (VNum 0) (VNum 0) VUndef]
                (Task 1 "t" cb2 1 (VNum 0) (VNum 0) VUndef)
                [Task 2 "t" cb3 2 (VNum 0) (VNum 0) VUndef]
                2 (VStr "boom") eq_refl Hq eq_refl He) as (H1 & H2 & _).
  split; [exact H1|exact H2].
Defined.

(** ** The features of a handle *)

Section Features.
Variable impl : nat → value → list value → completion.

(** A declared feature read from the handle and called is an emit of its
    topic on the core registry. *)
Lemma method_declared fuel name i prop args st :
  instances st !! name = Some i →
  includes (i_features i) prop = true →
  method impl (S (S fuel)) name prop args st
  = emit impl fuel (VStr (topic_of name prop) :: args) st.
Proof.
  intros Hi Hp. unfold method, get. unfold bind at 1. rewrite Hi, Hp.
  cbv beta iota. unfold apply, feature_invoker.
  rewrite call_Bind, call_CoreEmit. simpl app.
  by destruct (emit impl fuel _ st) as [[o s] e].
Qed.

(** An emit of a topic that a single task without [once] is registered
    for is the call of that task, with the task itself as context unless
    it has one bound. *)
Lemma emit_single_task fuel topic t args st :
  List.filter (topic_is topic) (queue st) = [t] →
  truthy (task_once t) = false →
  emit impl fuel (VStr topic :: args) st
  = match call_cb (call impl fuel) t
            (if truthy (task_ctx t) then task_ctx t else VTask t) args st with
    | (Ret v, st1, ev1) => (Ret (if truthy v then v else VUndef), st1, ev1)
    | other => other
    end.
Proof.
  intros Hq Honce. unfold emit. rewrite emit_with_string.
  unfold selected. rewrite Hq, array_sort_singleton.
  rewrite emit_loop_single by done. cbv zeta.
  pose proof (this_is_ctx VNull t) as E. cbv zeta in E. rewrite E.
  by change (truthy VNull) with false.
Qed.

(** X5. Reading a declared feature from the handle never yields the
    feature's implementation: calling it is [xT.emit] of the topic
    [$name:prop] on the core registry with the same arguments, so every
    task registered on that topic takes part. *)
Theorem handle_feature_is_core_emit fuel name i prop args st :
  instances st !! name = Some i →
  includes (i_features i) prop = true →
  get name prop st = (Ret (VFun (feature_invoker name prop)), st, [])
  ∧ method impl (S (S fuel)) name prop args st
    = emit impl fuel (VStr (topic_of name prop) :: args) st
  ∧ invoked (history (method impl (S (S fuel)) name prop args st))
      `prefix_of` selected (topic_of name prop) (queue st).
Proof.
  intros Hi Hp. split; [unfold get; by rewrite Hi, Hp|].
  rewrite (method_declared fuel name i) by done. split; [done|].
  unfold emit. rewrite emit_with_string. apply emit_loop_prefix.
Qed.

(** [u.on(...)] through the handle, in full. *)
Lemma handle_on_run fuel name i t_on args topic o st :
  instances st !! name = Some i →
  includes (i_features i) "on" = true →
  List.filter (topic_is (topic_of name "on")) (queue st) = [t_on] →
  task_cb t_on = VFun (BoundOn name) →
  truthy (task_once t_on) = false →
  nth 0 args VUndef = VStr topic →
  spread_opts (nth 2 args VUndef) = Some o →
  let t := make_task (fresh st) topic (nth 1 args VUndef) o in
  method impl (3 + fuel) name "on" args st
  = (Ret (VTask t),
     {| queue := queue st;
        instances := <[name := {| i_handle := i_handle i; i_features := i_features i;
                                  i_queue := i_queue i ++ [t] |}]> (instances st);
        fresh := S (fresh st) |},
     [Invoked t_on (if truthy (task_ctx t_on) then task_ctx t_on else VTask t_on)
        args (Ret (VTask t)) []]).
Proof.
  intros Hi Hp Hq Hcb Honce Htopic Hopts. cbv zeta.
  change (3 + fuel) with (S (S (S fuel))).
  rewrite (method_declared (S fuel) name i) by done.
  rewrite (emit_single_task (S fuel) _ t_on) by done.
  unfold call_cb. rewrite Hcb.
  change (call impl (S fuel) (BoundOn name) ?this args st)
    with (on_values (LocalQueue name) (nth 0 args VUndef) (nth 1 args VUndef)
            (nth 2 args VUndef) st).
  unfold on_values. rewrite Htopic, Hopts.
  unfold priv_on, bind, alloc, push. simpl. rewrite Hi. by simpl.
Qed.

(** X6. [u.on(topic, cb, opts)] on the handle of [name], when the
    constructor's task is the only one on [$name:on]: the new task is
    appended to the queue of that instance and returned; the core queue
    and the other instances are as before. *)
Theorem handle_on fuel name i t_on args topic o st :
  instances st !! name = Some i →
  includes (i_features i) "on" = true →
  List.filter (topic_is (topic_of name "on")) (queue st) = [t_on] →
  task_cb t_on = VFun (BoundOn name) →
  truthy (task_once t_on) = false →
  nth 0 args VUndef = VStr topic →
  spread_opts (nth 2 args VUndef) = Some o →
  let t := make_task (fresh st) topic (nth 1 args VUndef) o in
  let r := method impl (3 + fuel) name "on" args st in
  result r = Ret (VTask t)
  ∧ queue (final r) = queue st
  ∧ (∃ i', instances (final r) !! name = Some i' ∧ i_queue i' = i_queue i ++ [t]
           ∧ i_handle i' = i_handle i ∧ i_features i' = i_features i)
  ∧ (∀ other, other ≠ name → instances (final r) !! other = instances st !! other).
Proof.
  intros Hi Hp Hq Hcb Honce Htopic Hopts. cbv zeta.
  rewrite (handle_on_run fuel name i t_on args topic o st) by done.
  unfold result, final. simpl. split; [done|]. split; [done|]. split.
  - eexists. rewrite lookup_insert_eq. split; [done|]. by simpl.
  - intros other Hne. by rewrite lookup_insert_ne.
Qed.

(** X7. [u.queue()] returns the queue of the instance, the empty array
    included, and changes nothing; after [u.on(topic, cb, opts)] it
    returns the old queue followed by the new task. *)
Theorem handle_on_then_queue fuel name i t_on t_q args topic o st :
  instances st !! name = Some i →
  includes (i_features i) "on" = true →
  includes (i_features i) "queue" = true →
  List.filter (topic_is (topic_of name "on")) (queue st) = [t_on] →
  task_cb t_on = VFun (BoundOn name) →
  truthy (task_once t_on) = false →
  List.filter (topic_is (topic_of name "queue")) (queue st) = [t_q] →
  task_cb t_q = VFun (QueueGetter name) →
  truthy (task_once t_q) = false →
  nth 0 args VUndef = VStr topic →
  spread_opts (nth 2 args VUndef) = Some o →
  let t := make_task (fresh st) topic (nth 1 args VUndef) o in
  let st' := final (method impl (3 + fuel) name "on" args st) in
  result (method impl (3 + fuel) name "queue" [] st) = Ret (VArr (i_queue i))
  ∧ final (method impl (3 + fuel) name "queue" [] st) = st
  ∧ result (method impl (3 + fuel) name "queue" [] st') = Ret (VArr (i_queue i ++ [t]))
  ∧ final (method impl (3 + fuel) name "queue" [] st') = st'.
Proof.
  intros Hi Hon Hqu Hq1 Hcb1 Ho1 Hq2 Hcb2 Ho2 Htopic Hopts. cbv zeta.
  assert (Hget : ∀ s j, instances s !! name = Some j →
            i_features j = i_features i → queue s = queue st →
            method impl (3 + fuel) name "queue" [] s
            = (Ret (VArr (i_queue j)), s,
               [Invoked t_q (if truthy (task_ctx t_q) then task_ctx t_q else VTask t_q)
                  [] (Ret (VArr (i_queue j))) []])).
  { intros s j Hj Hf Hs. change (3 + fuel) with (S (S (S fuel))).
    rewrite (method_declared (S fuel) name j) by (by rewrite ?Hf).
    rewrite (emit_single_task (S fuel) _ t_q) by (by rewrite ?Hs).
    unfold call_cb. rewrite Hcb2.
    change (call impl (S fuel) (QueueGetter name) ?this [] s)
      with ((let* q := read_queue (LocalQueue name) in ret (VArr q)) s).
    unfold bind, read_queue, ret. by rewrite Hj. }
  rewrite (Hget st i Hi eq_refl eq_refl).
  split; [done|]. split; [done|].
  rewrite (handle_on_run fuel name i t_on args topic o st) by done.
  repeat match goal with
         | |- context [final (?a, ?s, ?e)] => change (final (a, s, e)) with s
         end.
  match goal with
  | |- context [method impl (3 + fuel) name "queue" [] ?s] =>
      rewrite (Hget s _ (lookup_insert_eq _ _ _) eq_refl eq_refl)
  end.
  split; reflexivity.
Qed.
End Features.

Lemma handle_feature_is_core_emit_witness :
  let impl := λ (_ : nat) (_ : value) (_ : list value), Normal VUndef in
  let st := final (construct "u" [] init) in
  let i := {| i_handle := 4; i_features := ["filter"; "queue"; "on"; "emit"];
              i_queue := [] |} in
  instances st !! "u" = Some i
  ∧ includes (i_features i) "queue" = true
  ∧ method impl 2 "u" "queue" [] st = emit impl 0 [VStr "$u:queue"] st.
Proof.
  cbv zeta.
  assert (Hi : instances (final (construct "u" [] init)) !! "u"
               = Some {| i_handle := 4; i_features := ["filter"; "queue"; "on"; "emit"];
                         i_queue := [] |}) by (vm_compute; reflexivity).
  split; [exact Hi|]. split; [reflexivity|].
  exact (proj1 (proj2 (handle_feature_is_core_emit (λ _ _ _, Normal VUndef) 0 "u" _
                         "queue" [] _ Hi eq_refl))).
Defined.

Lemma handle_on_witness :
  let impl := λ (_ : nat) (_ : value) (_ : list value), Normal VUndef in
  let st := final (construct "u" [] init) in
  let i := {| i_handle := 4; i_features := ["filter"; "queue"; "on"; "emit"];
              i_queue := [] |} in
  let t_on := Task 2 "$u:on" (VFun (BoundOn "u")) 0 (VNum 0) (VNum 0) VUndef in
  let args := [VStr "topic"; cb1] in
  instances st !! "u" = Some i
  ∧ includes (i_features i) "on" = true
  ∧ List.filter (topic_is (topic_of "u" "on")) (queue st) = [t_on]
  ∧ task_cb t_on = VFun (BoundOn "u")
  ∧ truthy (task_once t_on) = false
  ∧ nth 0 args VUndef = VStr "topic"
  ∧ spread_opts (nth 2 args VUndef) = Some no_opts
  ∧ result (method impl 3 "u" "on" args st)
    = Ret (VTask (Task 5 "topic" cb1 0 (VNum 0) (VNum 0) VUndef))
  ∧ queue (final (method impl 3 "u" "on" args st)) = queue st.
Proof.
  cbv zeta.
  do 7 (split; [vm_compute; reflexivity|]).
  pose proof (handle_on (λ _ _ _, Normal VUndef) 0 "u"
                {| i_handle := 4; i_features := ["filter"; "queue"; "on"; "emit"];
                   i_queue := [] |}
                (Task 2 "$u:on" (VFun (BoundOn "u")) 0 (VNum 0) (VNum 0) VUndef)
                [VStr "topic"; cb1] "topic" no_opts (final (construct "u" [] init)))
    as H.
  destruct H as (H1 & H2 & _); try (vm_compute; reflexivity).
  split; [exact H1|exact H2].
Defined.

Lemma handle_on_then_queue_witness :
  let impl := λ (_ : nat) (_ : value) (_ : list value), Normal VUndef in
  let st := final (construct "u" [] init) in
  let i := {| i_handle := 4; i_features := ["filter"; "queue"; "on"; "emit"];
              i_queue := [] |} in
  let t_on := Task 2 "$u:on" (VFun (BoundOn "u")) 0 (VNum 0) (VNum 0) VUndef in
  let t_q := Task 1 "$u:queue" (VFun (QueueGetter "u")) 0 (VNum 0) (VNum 0) VUndef in
  let args := [VStr "topic"; cb1] in
  let st' := final (method impl 3 "u" "on" args st) in
  instances st !! "u" = Some i
  ∧ includes (i_features i) "on" = true
  ∧ includes (i_features i) "queue" = true
  ∧ List.filter (topic_is (topic_of "u" "on")) (queue st) = [t_on]
  ∧ task_cb t_on = VFun (BoundOn "u")
  ∧ truthy (task_once t_on) = false
  ∧ List.filter (topic_is (topic_of "u" "queue")) (queue st) = [t_q]
  ∧ task_cb t_q = VFun (QueueGetter "u")
  ∧ truthy (task_once t_q) = false
  ∧ nth 0 args VUndef = VStr "topic"
  ∧ spread_opts (nth 2 args VUndef) = Some no_opts
  ∧ result (method impl 3 "u" "queue" [] st) = Ret (VArr [])
  ∧ result (method impl 3 "u" "queue" [] st')
    = Ret (VArr [Task 5 "topic" cb1 0 (VNum 0) (VNum 0) VUndef]).
Proof.
  cbv zeta.
  do 11 (split; [vm_compute; reflexivity|]).
  pose proof (handle_on_then_queue (λ _ _ _, Normal VUndef) 0 "u"
                {| i_handle := 4; i_features := ["filter"; "queue"; "on"; "emit"];
                   i_queue := [] |}
                (Task 2 "$u:on" (VFun (BoundOn "u")) 0 (VNum 0) (VNum 0) VUndef)
                (Task 1 "$u:queue" (VFun (QueueGetter "u")) 0 (VNum 0) (VNum 0) VUndef)
                [VStr "topic"; cb1] "topic" no_opts (final (construct "u" [] init)))
    as H.
  destruct H as (H1 & _ & H3 & _); try (vm_compute; reflexivity).
  split; [exact H1|exact H3].
Defined.

(** ** What construction registers *)

Lemma feature_tasks_shape n name l :
  task_topic <$> feature_tasks n name l = topic_of name <$> l.*1
  ∧ task_cb <$> feature_tasks n name l = l.*2
  ∧ Forall (λ t, task_sort t = 0%Z ∧ task_stop t = VNum 0 ∧ task_once t = VNum 0
                 ∧ task_ctx t = VUndef) (feature_tasks n name l).
Proof.
  revert n. induction l as [|[prop action] l IH]; intros n; [done|].
  cbn [feature_tasks]. rewrite !fmap_cons.
  destruct (IH (S n)) as (-> & -> & H). by repeat constructor.
Qed.

(** X8. Constructing an instance under a name that neither the registry
    nor [Object.prototype] holds appends to the core queue one task per
    key of the feature object, in key order, with topic [$name:key], the
    feature as callback and the default options; it keeps the tasks that
    were there, stores a handle with an empty queue under the name,
    leaves the other instances as they are and logs nothing. *)
Theorem construct_registers_features name features st :
  instances st !! name = None →
  inherited name = None →
  let eff := effective name features in
  let new := feature_tasks (fresh st) name (entries eff) in
  let r := construct name features st in
  result r = Ret (VProxy (length (entries eff) + fresh st) name)
  ∧ history r = []
  ∧ queue (final r) = queue st ++ new
  ∧ task_topic <$> new = topic_of name <$> keys eff
  ∧ task_cb <$> new = (entries eff).*2
  ∧ Forall (λ t, task_sort t = 0%Z ∧ task_stop t = VNum 0 ∧ task_once t = VNum 0
                 ∧ task_ctx t = VUndef) new
  ∧ instances (final r) !! name
    = Some {| i_handle := length (entries eff) + fresh st; i_features := keys eff;
              i_queue := [] |}
  ∧ (∀ other, other ≠ name → instances (final r) !! other = instances st !! other).
Proof.
  intros H1 H2. cbv zeta. rewrite (construct_first name features st H1 H2).
  unfold result, history, final. simpl.
  destruct (feature_tasks_shape (fresh st) name (entries (effective name features)))
    as (Ht & Hc & Hd).
  repeat split; try done.
  - by rewrite lookup_insert_eq.
  - intros other Hne. by rewrite lookup_insert_ne.
Qed.

Lemma construct_registers_features_witness :
  let r := construct "u" [("greet", cb1)] init in
  instances init !! "u" = None
  ∧ inherited "u" = None
  ∧ task_topic <$> queue (final r)
    = ["$u:filter"; "$u:greet"; "$u:queue"; "$u:on"; "$u:emit"]
  ∧ result r = Ret (VProxy 5 "u").
Proof.
  cbv zeta. split; [reflexivity|]. split; [reflexivity|].
  destruct (construct_registers_features "u" [("greet", cb1)] init eq_refl eq_refl)
    as (Hr & _ & Hq & Ht & _).
  split; [|exact Hr].
  rewrite Hq. exact Ht.
Defined.

(** ** Emit through a handle *)

Lemma append_eqb a x y : String.eqb (a +:+ x) (a +:+ y) = String.eqb x y.
Proof.
  induction a as [|c a IH]; simpl; [done|]. by rewrite Ascii.eqb_refl.
Qed.

(** The topics of two features of one instance differ as the feature
    names do. *)
Lemma topic_of_eqb name p q :
  String.eqb (topic_of name p) (topic_of name q) = String.eqb p q.
Proof. unfold topic_of. by rewrite !append_eqb. Qed.

Section HandleEmit.
Variable impl : nat → value → list value → completion.

(** [u.emit(...args)] through the handle is the call of the [emit]
    closure by the core registry. *)
Lemma method_emit_run fuel name i te args st :
  instances st !! name = Some i →
  includes (i_features i) "emit" = true →
  List.filter (topic_is (topic_of name "emit")) (queue st) = [te] →
  task_cb te = VFun (InstEmit name) →
  truthy (task_once te) = false →
  method impl (3 + fuel) name "emit" args st
  = let '(o, st1, ev) := inst_emit_with (call impl fuel) name args st in
    (match o with Ret v => Ret (if truthy v then v else VUndef) | _ => o end, st1,
     [Invoked te (if truthy (task_ctx te) then task_ctx te else VTask te) args o ev]).
Proof.
  intros Hi Hp Hq Hcb Honce. change (3 + fuel) with (S (S (S fuel))).
  rewrite (method_declared impl (S fuel) name i) by done.
  rewrite (emit_single_task impl (S fuel) _ te) by done.
  unfold call_cb. rewrite Hcb. rewrite call_InstEmit.
  by destruct (inst_emit_with _ name args st) as [[[v|e| |] st1] ev].
Qed.

(** X9. [u.emit(topic, ...args)] for a topic none of the instance's
    tasks has, with only the constructor's tasks on [$name:emit] and
    [$name:filter]: no error, no function of the caller is called, the
    state is unchanged and the result is [undefined]. *)
Theorem instance_emit_without_match fuel name i te tf topic args st :
  instances st !! name = Some i →
  includes (i_features i) "emit" = true →
  List.filter (topic_is (topic_of name "emit")) (queue st) = [te] →
  task_cb te = VFun (InstEmit name) →
  truthy (task_once te) = false →
  List.filter (topic_is (topic_of name "filter")) (queue st) = [tf] →
  task_cb tf = VFun DefaultFilter →
  truthy (task_once tf) = false →
  List.filter (topic_is topic) (i_queue i) = [] →
  let r := method impl (4 + fuel) name "emit" (VStr topic :: args) st in
  result r = Ret VUndef
  ∧ final r = st
  ∧ user_calls (history r) = [].
Proof.
  intros Hi Hp Hqe Hcbe Hoe Hqf Hcbf Hof Hnone. cbv zeta.
  change (4 + fuel) with (3 + S fuel).
  rewrite (method_emit_run (S fuel) name i te) by done.
  rewrite (inst_emit_string _ name i) by done.
  unfold bind. rewrite (filter_emit impl fuel name tf) by done.
  rewrite Hnone. unfold priv_emit, array_sort. simpl.
  unfold result, final, history, user_calls. simpl.
  rewrite Hcbe, Hcbf. done.
Qed.

End HandleEmit.

(** ** Hooks on a topic *)

Section Hooks.
Variable impl : nat → value → list value → completion.

(** X11. A hook that runs before the default filter and does not stop
    cannot change the selection: when the default filter is the last
    task of a topic and the tasks before it are quiet, the emit
    [emit(topic', queue, topic)] returns the tasks of [queue] with topic
    [topic], whatever the hooks returned; the array the filter returns is
    truthy even when empty, and the last truthy value is the result. *)
Theorem default_filter_overrides_earlier_hooks fuel ftopic pre tf q topic st :
  selected ftopic (queue st) = pre ++ [tf] →
  Forall (quiet impl) pre →
  task_cb tf = VFun DefaultFilter →
  truthy (task_once tf) = false →
  let r := emit impl (S fuel) [VStr ftopic; VArr q; VStr topic] st in
  result r = Ret (VArr (List.filter (topic_is topic) q))
  ∧ final r = st
  ∧ invoked (history r) = pre ++ [tf].
Proof.
  intros Hsel Hpre Hcb Honce. cbv zeta. unfold emit.
  rewrite emit_with_string, Hsel.
  destruct (emit_loop_quiet_app impl fuel pre [tf] [VArr q; VStr topic] VNull VUndef
              st Hpre) as (ctx' & tr' & evs & Hevs & ->).
  rewrite emit_loop_single by done. cbv zeta.
  unfold call_cb. rewrite Hcb.
  change (call impl (S fuel) DefaultFilter ?this [VArr q; VStr topic] st)
    with (priv_filter (VArr q) (VStr topic) st).
  unfold priv_filter. rewrite filter_tasks_string.
  unfold ret, result, final, history. simpl.
  by rewrite invoked_app, Hevs.
Qed.

(** X12. A hook that comes first in sorted order and has [stop] set
    replaces the tasks after it: when its callback returns [v], the emit
    calls that callback only and returns [v] when truthy and
    [undefined] otherwise. *)
Theorem stop_hook_replaces fuel topic th rest id v args st :
  selected topic (queue st) = th :: rest →
  task_cb th = VFun (User id) →
  truthy (task_stop th) = true →
  truthy (task_once th) = false →
  (∀ this, impl id this args = Normal v) →
  emit impl (S fuel) (VStr topic :: args) st
  = (Ret (if truthy v then v else VUndef), st,
     [Invoked th (if truthy (task_ctx th) then task_ctx th else VTask th) args
        (Ret v) []]).
Proof.
  intros Hsel Hcb Hstop Honce Hv. unfold emit.
  rewrite emit_with_string, Hsel, emit_loop_cons. cbv zeta.
  pose proof (this_is_ctx VNull th) as E. cbv zeta in E. rewrite E.
  change (truthy VNull) with false. cbv iota.
  unfold call_cb. rewrite Hcb.
  change (call impl (S fuel) (User id) ?this args st)
    with (of_completion (impl id this args), st, @nil event).
  rewrite Hv. cbn [of_completion]. by rewrite Honce, Hstop.
Qed.
End Hooks.

Lemma default_filter_overrides_earlier_hooks_witness :
  let impl := λ (_ : nat) (_ : value) (_ : list value), Normal (VArr []) in
  let hook := Task 9 "$u:filter" cb1 (-10) (VNum 0) (VNum 0) VUndef in
  let tf := Task 0 "$u:filter" (VFun DefaultFilter) 0 (VNum 0) (VNum 0) VUndef in
  let t := Task 5 "topic" cb2 0 (VNum 0) (VNum 0) VUndef in
  let st := {| queue := [tf; hook]; instances := ∅; fresh := 10 |} in
  selected "$u:filter" (queue st) = [hook] ++ [tf]
  ∧ Forall (quiet impl) [hook]
  ∧ task_cb tf = VFun DefaultFilter
  ∧ truthy (task_once tf) = false
  ∧ result (emit impl 1 [VStr "$u:filter"; VArr [t]; VStr "topic"] st) = Ret (VArr [t]).
Proof.
  cbv zeta.
  set (impl := λ (_ : nat) (_ : value) (_ : list value), Normal (VArr [])).
  assert (Hq : Forall (quiet impl)
                 [Task 9 "$u:filter" cb1 (-10) (VNum 0) (VNum 0) VUndef]).
  { repeat constructor. exists 1. split; [reflexivity|]. intros this a. by exists (VArr []). }
  split; [reflexivity|]. split; [exact Hq|]. split; [reflexivity|]. split; [reflexivity|].
  exact (proj1 (default_filter_overrides_earlier_hooks impl 0 "$u:filter"
                  [Task 9 "$u:filter" cb1 (-10) (VNum 0) (VNum 0) VUndef]
                  (Task 0 "$u:filter" (VFun DefaultFilter) 0 (VNum 0) (VNum 0) VUndef)
                  [Task 5 "topic" cb2 0 (VNum 0) (VNum 0) VUndef] "topic"
                  {| queue := [Task 0 "$u:filter" (VFun DefaultFilter) 0 (VNum 0) (VNum 0) VUndef;
                               Task 9 "$u:filter" cb1 (-10) (VNum 0) (VNum 0) VUndef];
                     instances := ∅; fresh := 10 |}
                  eq_refl Hq eq_refl eq_refl)).
Defined.

Lemma stop_hook_replaces_witness :
  let impl := λ (_ : nat) (_ : value) (_ : list value), Normal (VArr []) in
  let hook := Task 9 "$u:filter" cb1 (-10) (VNum 1) (VNum 0) VUndef in
  let tf := Task 0 "$u:filter" (VFun DefaultFilter) 0 (VNum 0) (VNum 0) VUndef in
  let t := Task 5 "topic" cb2 0 (VNum 0) (VNum 0) VUndef in
  let st := {| queue := [tf; hook]; instances := ∅; fresh := 10 |} in
  let args := [VArr [t]; VStr "topic"] in
  selected "$u:filter" (queue st) = hook :: [tf]
  ∧ task_cb hook = VFun (User 1)
  ∧ truthy (task_stop hook) = true
  ∧ truthy (task_once hook) = false
  ∧ (∀ this, impl 1 this args = Normal (VArr []))
  ∧ emit impl 1 (VStr "$u:filter" :: args) st
    = (Ret (VArr []), st, [Invoked hook (VTask hook) args (Ret (VArr [])) []]).
Proof.
  cbv zeta.
  do 4 (split; [reflexivity|]).
  split; [intros this; reflexivity|].
  exact (stop_hook_replaces (λ _ _ _, Normal (VArr [])) 0 "$u:filter"
           (Task 9 "$u:filter" cb1 (-10) (VNum 1) (VNum 0) VUndef)
           [Task 0 "$u:filter" (VFun DefaultFilter) 0 (VNum 0) (VNum 0) VUndef]
           1 (VArr []) [VArr [Task 5 "topic" cb2 0 (VNum 0) (VNum 0) VUndef]; VStr "topic"]
           {| queue := [Task 0 "$u:filter" (VFun DefaultFilter) 0 (VNum 0) (VNum 0) VUndef;
                        Task 9 "$u:filter" cb1 (-10) (VNum 1) (VNum 0) VUndef];
              instances := ∅; fresh := 10 |}
           eq_refl eq_refl eq_refl eq_refl (λ _, eq_refl)).
Defined.

(** ** A new instance, end to end *)

(** The feature object of an instance constructed without features. *)
Lemma entries_default name :
  entries (effective name [])
  = [("filter", VFun DefaultFilter); ("queue", VFun (QueueGetter name));
     ("on", VFun (BoundOn name)); ("emit", VFun (InstEmit name))].
Proof. reflexivity. Qed.

(** X13. For every name that neither the registry nor [Object.prototype]
    holds, on a registry without tasks on [$name:on], [$name:emit] and
    [$name:filter]: after [u = new xT(name)] and [u.on(topic, f)],
    [u.emit(topic, ...args)] calls [f] once, with the new task as [this]
    and with [args]; it returns what [f] returns when that is truthy,
    [undefined] when it is falsy, and throws what [f] throws. *)
Theorem new_instance_on_then_emit impl fuel name topic id args st :
  instances st !! name = None →
  inherited name = None →
  List.filter (topic_is (topic_of name "on")) (queue st) = [] →
  List.filter (topic_is (topic_of name "emit")) (queue st) = [] →
  List.filter (topic_is (topic_of name "filter")) (queue st) = [] →
  let t := Task (5 + fresh st) topic (VFun (User id)) 0 (VNum 0) (VNum 0) VUndef in
  let st1 := final (construct name [] st) in
  let r_on := method impl (3 + fuel) name "on" [VStr topic; VFun (User id)] st1 in
  let r := method impl (4 + fuel) name "emit" (VStr topic :: args) (final r_on) in
  result r_on = Ret (VTask t)
  ∧ user_calls (history r) = [(id, VTask t, args)]
  ∧ result r = match impl id (VTask t) args with
               | Normal v => Ret (if truthy v then v else VUndef)
               | Abrupt e => Throw (Thrown e)
               end
  ∧ final r = final r_on.
Proof.
  intros Hnone Hinh Hon Hemit Hfilter. cbv zeta.
  rewrite (construct_first name [] st Hnone Hinh). rewrite entries_default.
  unfold keys. rewrite entries_default.
  cbn [length feature_tasks fmap list_fmap fst].
  repeat match goal with
         | |- context [final (?a, ?s, ?e)] => change (final (a, s, e)) with s
         end.
  set (n := fresh st).
  set (tF := make_task n (topic_of name "filter") (VFun DefaultFilter) no_opts).
  set (tQ := make_task (S n) (topic_of name "queue") (VFun (QueueGetter name)) no_opts).
  set (tO := make_task (S (S n)) (topic_of name "on") (VFun (BoundOn name)) no_opts).
  set (tE := make_task (S (S (S n))) (topic_of name "emit") (VFun (InstEmit name)) no_opts).
  set (i0 := {| i_handle := 4 + n; i_features := ["filter"; "queue"; "on"; "emit"];
                i_queue := [] |}).
  set (st1 := {| queue := queue st ++ [tF; tQ; tO; tE];
                 instances := <[name := i0]> (instances st); fresh := S (4 + n) |}).
  assert (Hsel : ∀ p t', List.filter (topic_is (topic_of name p)) (queue st) = [] →
            List.filter (topic_is (topic_of name p)) [tF; tQ; tO; tE] = [t'] →
            List.filter (topic_is (topic_of name p)) (queue st1) = [t']).
  { intros p t' H1 H2. unfold st1. cbn [queue]. by rewrite List.filter_app, H1, H2. }
  assert (HqO : List.filter (topic_is (topic_of name "on")) (queue st1) = [tO]).
  { apply Hsel; [done|]. unfold topic_is. cbn [List.filter tF tQ tO tE make_task task_topic
      no_opts o_topic default]. by rewrite !topic_of_eqb. }
  assert (HqE : List.filter (topic_is (topic_of name "emit")) (queue st1) = [tE]).
  { apply Hsel; [done|]. unfold topic_is. cbn [List.filter tF tQ tO tE make_task task_topic
      no_opts o_topic default]. by rewrite !topic_of_eqb. }
  assert (HqF : List.filter (topic_is (topic_of name "filter")) (queue st1) = [tF]).
  { apply Hsel; [done|]. unfold topic_is. cbn [List.filter tF tQ tO tE make_task task_topic
      no_opts o_topic default]. by rewrite !topic_of_eqb. }
  assert (Hi1 : instances st1 !! name = Some i0) by apply lookup_insert_eq.
  rewrite (handle_on_run impl fuel name i0 tO [VStr topic; VFun (User id)] topic
             no_opts st1 Hi1 eq_refl HqO eq_refl eq_refl eq_refl eq_refl).
  repeat match goal with
         | |- context [final (?a, ?s, ?e)] => change (final (a, s, e)) with s
         end.
  set (t := make_task (fresh st1) topic (nth 1 [VStr topic; VFun (User id)] VUndef) no_opts).
  set (i1 := {| i_handle := i_handle i0; i_features := i_features i0;
                i_queue := i_queue i0 ++ [t] |}).
  set (st2 := {| queue := queue st1; instances := <[name := i1]> (instances st1);
                 fresh := S (fresh st1) |}).
  assert (Hi2 : instances st2 !! name = Some i1) by apply lookup_insert_eq.
  split; [reflexivity|].
  assert (Hmethod :
    method impl (4 + fuel) name "emit" (VStr topic :: args) st2
    = (match impl id (VTask t) args with
       | Normal v => Ret (if truthy v then v else VUndef)
       | Abrupt e => Throw (Thrown e)
       end, st2,
       [Invoked tE (VTask tE) (VStr topic :: args)
          (match impl id (VTask t) args with
           | Normal v => Ret (if truthy v then v else VUndef)
           | Abrupt e => Throw (Thrown e)
           end)
          [Invoked tF (VTask tF) [VArr [t]; VStr topic] (Ret (VArr [t])) [];
           Invoked t (VTask t) args (of_completion (impl id (VTask t) args)) []]])).
  { change (4 + fuel) with (3 + S fuel).
    rewrite (method_emit_run impl (S fuel) name i1 tE (VStr topic :: args) st2
               Hi2 eq_refl HqE eq_refl eq_refl).
    rewrite (inst_emit_string _ name i1) by done.
    unfold bind at 1.
    rewrite (filter_emit impl fuel name tF (i_queue i1) topic st2 HqF eq_refl eq_refl).
    assert (Ht : topic_is topic t = true) by apply String.eqb_refl.
    cbn [i_queue i1 i0 app List.filter]. rewrite !Ht.
    rewrite priv_emit_array, array_sort_singleton.
    rewrite emit_loop_single by reflexivity. cbv zeta.
    unfold call_cb. cbn [task_cb t make_task nth no_opts o_cb default].
    change (call impl (S fuel) (User id) ?this args st2)
      with (of_completion (impl id this args), st2, @nil event).
    change (task_ctx t) with VUndef. change (task_ctx tE) with VUndef.
    change (task_ctx tF) with VUndef. cbn [truthy].
    destruct (impl id _ args) as [v|e]; cbn [of_completion]; [|done].
    destruct (truthy v) eqn:E; [by rewrite E|done]. }
  rewrite Hmethod. unfold result, final, history, user_calls. cbn [fst snd].
  split; [|done].
  cbn [flat_map calls task_cb tE tF t make_task nth no_opts o_cb default app].
  done.
Qed.

Lemma new_instance_on_then_emit_witness :
  let impl := λ (_ : nat) (_ : value) (args : list value), Normal (nth 0 args VUndef) in
  let t := Task 5 "topic" cb1 0 (VNum 0) (VNum 0) VUndef in
  let st1 := final (construct "u" [] init) in
  let r_on := method impl 3 "u" "on" [VStr "topic"; cb1] st1 in
  let r := method impl 4 "u" "emit" [VStr "topic"; VNum 1; VNum 2] (final r_on) in
  instances init !! "u" = None
  ∧ inherited "u" = None
  ∧ List.filter (topic_is (topic_of "u" "on")) (queue init) = []
  ∧ List.filter (topic_is (topic_of "u" "emit")) (queue init) = []
  ∧ List.filter (topic_is (topic_of "u" "filter")) (queue init) = []
  ∧ user_calls (history r) = [(1, VTask t, [VNum 1; VNum 2])]
  ∧ result r = Ret (VNum 1).
Proof.
  cbv zeta. do 5 (split; [reflexivity|]).
  destruct (new_instance_on_then_emit (λ _ _ args, Normal (nth 0 args VUndef)) 0 "u"
              "topic" 1 [VNum 1; VNum 2] init eq_refl eq_refl eq_refl eq_refl eq_refl)
    as (_ & H2 & H3 & _).
  split; [exact H2|exact H3].
Defined.

Lemma instance_emit_without_match_witness :
  let impl := λ (_ : nat) (_ : value) (_ : list value), Normal VUndef in
  let st := final (instance_scenario impl init) in
  let te := Task 3 "$u:emit" (VFun (InstEmit "u")) 0 (VNum 0) (VNum 0) VUndef in
  let tf := Task 0 "$u:filter" (VFun DefaultFilter) 0 (VNum 0) (VNum 0) VUndef in
  let i := {| i_handle := 4; i_features := ["filter"; "queue"; "on"; "emit"];
              i_queue := [Task 5 "topic" cb1 0 (VNum 0) (VNum 0) VUndef] |} in
  instances st !! "u" = Some i
  ∧ includes (i_features i) "emit" = true
  ∧ List.filter (topic_is (topic_of "u" "emit")) (queue st) = [te]
  ∧ task_cb te = VFun (InstEmit "u")
  ∧ truthy (task_once te) = false
  ∧ List.filter (topic_is (topic_of "u" "filter")) (queue st) = [tf]
  ∧ task_cb tf = VFun DefaultFilter
  ∧ truthy (task_once tf) = false
  ∧ List.filter (topic_is "typo") (i_queue i) = []
  ∧ result (method impl 4 "u" "emit" [VStr "typo"; VNum 1] st) = Ret VUndef.
Proof.
  cbv zeta. do 9 (split; [vm_compute; reflexivity|]).
  refine (proj1 (instance_emit_without_match (λ _ _ _, Normal VUndef) 0 "u"
            {| i_handle := 4; i_features := ["filter"; "queue"; "on"; "emit"];
               i_queue := [Task 5 "topic" cb1 0 (VNum 0) (VNum 0) VUndef] |}
            (Task 3 "$u:emit" (VFun (InstEmit "u")) 0 (VNum 0) (VNum 0) VUndef)
            (Task 0 "$u:filter" (VFun DefaultFilter) 0 (VNum 0) (VNum 0) VUndef)
            "typo" [VNum 1] _ _ _ _ _ _ _ _ _ _)); vm_compute; reflexivity.
Defined.


Lemma construct_twice_witness :
  let r1 := construct "u" [] init in
  let r2 := construct "u" [("extra", cb1)] (final r1) in
  instances init !! "u" = None
  ∧ inherited "u" = None
  ∧ result r2 = result r1
  ∧ final r2 = final r1.
Proof.
  cbv zeta. split; [reflexivity|]. split; [reflexivity|].
  destruct (construct_twice "u" [] [("extra", cb1)] init eq_refl eq_refl)
    as (H1 & H2 & _).
  split; [exact H1|exact H2].
Defined.

(** ** Nothing is ever unregistered *)

Lemma extending_register name l : extending (register name l).
Proof.
  induction l as [|[prop action] l IH]; simpl; [apply extending_ret|].
  apply extending_bind; [apply extending_priv_on|]. intros _. apply IH.
Qed.

(** X15. Neither [xT.on], nor the constructor, nor any call through a
    handle removes a task. After [xT.on] and after the constructor the
    core queue and the queue of every instance that existed begin with
    what they held before; after a call through a handle, which may be
    an emit and sort an array, they hold every task they held before. *)
Theorem registration_only_extends :
  (∀ topic cb o, extending (on topic cb o))
  ∧ (∀ name features, extending (construct name features))
  ∧ (∀ impl fuel name prop args, keeping (method impl fuel name prop args)).
Proof.
  split; [intros; apply extending_priv_on|]. split.
  - intros name features st.
    destruct (truthy (instances_get name st)) eqn:E.
    { unfold construct. rewrite E. apply grows_refl. }
    assert (Hnone : instances st !! name = None).
    { unfold instances_get in E. by destruct (instances st !! name). }
    assert (Hinh : inherited name = None).
    { unfold instances_get in E. rewrite Hnone in E. by destruct (inherited name). }
    rewrite (construct_first name features st Hnone Hinh).
    unfold final. cbn [fst snd]. split; [by apply prefix_app_r|].
    cbn [instances]. intros name' i Hi'.
    destruct (decide (name = name')) as [<-|Hne]; [congruence|].
    rewrite lookup_insert_ne by done. by exists i.
  - intros impl fuel name prop args. unfold method.
    apply keeping_bind.
    + intros st. unfold get.
      destruct (instances st !! name) as [i|]; [|apply keeps_refl].
      destruct (includes (i_features i) prop); [apply keeps_refl|].
      destruct (includes (i_features i) "emit"); [|apply keeps_refl].
      destruct (String.eqb prop "name"); apply keeps_refl.
    + intros f. unfold apply.
      destruct f; try apply keeping_throw; try apply keeping_unsupported.
      apply keeping_call.
Qed.

(** ** Features of the caller *)

Lemma includes_builtin_false prop :
  includes ["filter"; "queue"; "on"; "emit"] prop = false →
  String.eqb prop "filter" = false ∧ String.eqb prop "queue" = false
  ∧ String.eqb prop "on" = false ∧ String.eqb prop "emit" = false.
Proof.
  unfold includes. cbn [existsb]. intros H.
  by repeat (apply orb_false_elim in H as [? H]).
Qed.

Lemma obj_set_new k v o :
  Forall (λ kv, String.eqb k kv.1 = false) o → obj_set k v o = o ++ [(k, v)].
Proof.
  induction 1 as [|[k' v'] o Hk _ IH]; [done|].
  cbn [obj_set app]. cbn [fst] in Hk. by rewrite Hk, IH.
Qed.

(** The feature object and its entries for one supplied feature that is
    none of the four built-in names. *)
Lemma entries_one_feature name prop f :
  includes ["filter"; "queue"; "on"; "emit"] prop = false →
  entries (effective name [(prop, f)])
  = if is_index prop
    then [(prop, f); ("filter", VFun DefaultFilter); ("queue", VFun (QueueGetter name));
          ("on", VFun (BoundOn name)); ("emit", VFun (InstEmit name))]
    else [("filter", VFun DefaultFilter); (prop, f); ("queue", VFun (QueueGetter name));
          ("on", VFun (BoundOn name)); ("emit", VFun (InstEmit name))].
Proof.
  intros H. destruct (includes_builtin_false prop H) as (Hf & Hq & Ho & He).
  rewrite String.eqb_sym in Hq, Ho, He.
  assert (Hspread : spread [(prop, f)] [("filter", VFun DefaultFilter)]
                    = [("filter", VFun DefaultFilter); (prop, f)]).
  { unfold spread, entries. cbn [List.filter fst].
    destruct (is_index prop); cbn [negb array_sort fold_left sort_insert app snd fst
                                     obj_set]; by rewrite Hf. }
  unfold effective.
  change (obj_set "filter" (VFun DefaultFilter) []) with [("filter", VFun DefaultFilter)].
  rewrite Hspread.
  rewrite (obj_set_new "queue") by (repeat constructor; done).
  rewrite (obj_set_new "on") by (repeat constructor; done).
  rewrite (obj_set_new "emit") by (repeat constructor; done).
  unfold entries. cbn [List.filter fst app].
  change (is_index "filter") with false. change (is_index "queue") with false.
  change (is_index "on") with false. change (is_index "emit") with false.
  by destruct (is_index prop).
Qed.

(** A feature whose only task holds a function of the caller, called
    through the handle. *)
Lemma method_user_feature impl fuel name i prop t id args st :
  instances st !! name = Some i →
  includes (i_features i) prop = true →
  List.filter (topic_is (topic_of name prop)) (queue st) = [t] →
  task_cb t = VFun (User id) →
  truthy (task_once t) = false →
  task_ctx t = VUndef →
  method impl (3 + fuel) name prop args st
  = (match impl id (VTask t) args with
     | Normal v => Ret (if truthy v then v else VUndef)
     | Abrupt e => Throw (Thrown e)
     end, st,
     [Invoked t (VTask t) args (of_completion (impl id (VTask t) args)) []]).
Proof.
  intros Hi Hp Hq Hcb Honce Hctx. change (3 + fuel) with (S (S (S fuel))).
  rewrite (method_declared impl (S fuel) name i) by done.
  rewrite (emit_single_task impl (S fuel) _ t) by done.
  unfold call_cb. rewrite Hcb, Hctx. cbn [truthy].
  change (call impl (S fuel) (User id) ?this args st)
    with (of_completion (impl id this args), st, @nil event).
  by destruct (impl id (VTask t) args).
Qed.

(** X16. A feature supplied at construction, under a name that is none
    of [filter], [queue], [on], [emit], is registered as a task on
    [$name:prop] and can be called as a property of the handle: for a
    new instance on a registry without tasks on that topic,
    [u.prop(...args)] calls the supplied function once, with its task as
    [this] and with [args], returns what it returns when truthy
    ([undefined] otherwise), throws what it throws, and changes
    nothing. *)
Theorem supplied_feature_is_callable impl fuel name prop id args st :
  instances st !! name = None →
  inherited name = None →
  includes ["filter"; "queue"; "on"; "emit"] prop = false →
  List.filter (topic_is (topic_of name prop)) (queue st) = [] →
  let st1 := final (construct name [(prop, VFun (User id))] st) in
  let r := method impl (3 + fuel) name prop args st1 in
  ∃ t, t ∈ queue st1
       ∧ task_topic t = topic_of name prop
       ∧ task_cb t = VFun (User id)
       ∧ user_calls (history r) = [(id, VTask t, args)]
       ∧ result r = match impl id (VTask t) args with
                    | Normal v => Ret (if truthy v then v else VUndef)
                    | Abrupt e => Throw (Thrown e)
                    end
       ∧ final r = st1.
Proof.
  intros Hnone Hinh Hb Hq. cbv zeta.
  rewrite (construct_first name _ st Hnone Hinh). unfold keys.
  rewrite (entries_one_feature name prop _ Hb).
  destruct (includes_builtin_false prop Hb) as (Hf & Hqu & Ho & He).
  change (final (?a, ?s, ?e)) with s.
  assert (Hcase : ∀ h ks pre post n,
    Forall (λ x, topic_is (topic_of name prop) x = false) pre →
    Forall (λ x, topic_is (topic_of name prop) x = false) post →
    includes ks prop = true →
    let t := make_task n (topic_of name prop) (VFun (User id)) no_opts in
    let st1 := {| queue := queue st ++ pre ++ t :: post;
                  instances := <[name := {| i_handle := h; i_features := ks;
                                            i_queue := [] |}]> (instances st);
                  fresh := S h |} in
    let r := method impl (3 + fuel) name prop args st1 in
    ∃ t, t ∈ queue st1
         ∧ task_topic t = topic_of name prop
         ∧ task_cb t = VFun (User id)
         ∧ user_calls (history r) = [(id, VTask t, args)]
         ∧ result r = match impl id (VTask t) args with
                      | Normal v => Ret (if truthy v then v else VUndef)
                      | Abrupt e => Throw (Thrown e)
                      end
         ∧ final r = st1).
  { intros h ks pre post n Hpre Hpost Hks t st1 r. exists t.
    assert (Hnil : ∀ l, Forall (λ x, topic_is (topic_of name prop) x = false) l →
                        List.filter (topic_is (topic_of name prop)) l = []).
    { induction 1 as [|x l Hx _ IH]; [done|]. cbn [List.filter]. by rewrite Hx. }
    assert (Hsel : List.filter (topic_is (topic_of name prop)) (queue st1) = [t]).
    { unfold st1. cbn [queue]. rewrite !List.filter_app, Hq, (Hnil pre Hpre).
      cbn [List.filter app]. rewrite (Hnil post Hpost).
      unfold topic_is at 1. cbn [t make_task task_topic no_opts o_topic default].
      by rewrite String.eqb_refl. }
    split.
    { unfold st1. cbn [queue]. rewrite !elem_of_app. right. right. left. }
    split; [reflexivity|]. split; [reflexivity|].
    unfold r.
    rewrite (method_user_feature impl fuel name
               {| i_handle := h; i_features := ks; i_queue := [] |} prop t id args st1
               (lookup_insert_eq _ _ _) Hks Hsel eq_refl eq_refl eq_refl).
    unfold result, final, history, user_calls. cbn [fst snd flat_map calls app].
    by change (task_cb t) with (VFun (User id)). }
  assert (Hoff : ∀ p v n, String.eqb prop p = false →
            topic_is (topic_of name prop) (make_task n (topic_of name p) v no_opts)
            = false).
  { intros p v n Hp. unfold topic_is.
    cbn [make_task task_topic no_opts o_topic default].
    by rewrite topic_of_eqb, String.eqb_sym. }
  destruct (is_index prop); cbn [length feature_tasks fmap list_fmap fst].
  - apply (Hcase _ _ [] [_; _; _; _]).
    + constructor.
    + repeat constructor; by apply Hoff.
    + unfold includes. cbn [existsb]. by rewrite String.eqb_refl.
  - apply (Hcase _ _ [_] [_; _; _]).
    + repeat constructor; by apply Hoff.
    + repeat constructor; by apply Hoff.
    + unfold includes. cbn [existsb]. by rewrite String.eqb_refl, orb_true_r.
Qed.

Lemma supplied_feature_is_callable_witness :
  let impl := λ (_ : nat) (_ : value) (_ : list value), Normal (VStr "hi") in
  let st1 := final (construct "u" [("greet", cb1)] init) in
  let r := method impl 3 "u" "greet" [VNum 1] st1 in
  instances init !! "u" = None
  ∧ inherited "u" = None
  ∧ includes ["filter"; "queue"; "on"; "emit"] "greet" = false
  ∧ List.filter (topic_is (topic_of "u" "greet")) (queue init) = []
  ∧ ∃ t, user_calls (history r) = [(1, VTask t, [VNum 1])] ∧ result r = Ret (VStr "hi").
Proof.
  cbv zeta. do 4 (split; [reflexivity|]).
  destruct (supplied_feature_is_callable (λ _ _ _, Normal (VStr "hi")) 0 "u" "greet" 1
              [VNum 1] init eq_refl eq_refl eq_refl eq_refl)
    as (t & _ & _ & _ & H1 & H2 & _).
  exists t. split; [exact H1|exact H2].
Defined.

(** ** The property [name] of a handle *)

Lemma includes_elem_of l s : includes l s = true ↔ s ∈ l.
Proof.
  unfold includes. induction l as [|x l IH]; cbn [existsb].
  - split; [done|]. intros H. by apply elem_of_nil in H.
  - rewrite orb_true_iff, IH, elem_of_cons.
    by destruct (String.eqb_spec s x); intuition.
Qed.

Lemma obj_get_elem_of k o : is_Some (obj_get k o) ↔ k ∈ o.*1.
Proof.
  split.
  - intros [v Hv]. apply obj_get_Some in Hv.
    by apply (list_elem_of_fmap_2 fst) in Hv.
  - intros Hk. destruct (obj_get k o) as [v|] eqn:E; [by eexists|].
    by apply obj_get_None in E.
Qed.

(** [Object.keys(o).includes(k)] says whether [o] has the key. *)
Lemma includes_keys k o :
  includes (keys o) k = match obj_get k o with Some _ => true | None => false end.
Proof.
  assert (H : includes (keys o) k = true ↔ is_Some (obj_get k o)).
  { rewrite includes_elem_of, obj_get_elem_of. unfold keys.
    by rewrite entries_perm. }
  destruct (obj_get k o) as [v|].
  - apply H. by eexists.
  - destruct (includes (keys o) k); [|done].
    destruct (proj1 H eq_refl) as [v Hv]. discriminate Hv.
Qed.

(** X19. The handle of an instance built from features without a key
    [name] cannot be asked for [name]: the constructor has defined
    [name] on the feature object as a property that can be neither
    written nor configured, the trap answers a function for it, and the
    Proxy raises TypeError. Nothing is called and nothing changes. *)
Theorem handle_name_is_unreadable impl fuel name features args st :
  instances st !! name = None →
  inherited name = None →
  NoDup features.*1 →
  obj_get "name" features = None →
  let st1 := final (construct name features st) in
  get name "name" st1 = (Throw TypeError, st1, [])
  ∧ method impl fuel name "name" args st1 = (Throw TypeError, st1, []).
Proof.
  intros Hnone Hinh Hnd Hname. cbv zeta.
  rewrite (construct_first name features st Hnone Hinh).
  change (final (?a, ?s, ?e)) with s.
  assert (Hget : ∀ h q f,
    get name "name"
      {| queue := q;
         instances := <[name := {| i_handle := h;
                                   i_features := keys (effective name features);
                                   i_queue := [] |}]> (instances st);
         fresh := f |}
    = (Throw TypeError,
       {| queue := q;
          instances := <[name := {| i_handle := h;
                                    i_features := keys (effective name features);
                                    i_queue := [] |}]> (instances st);
          fresh := f |}, [])).
  { intros h q f. unfold get. cbn [instances]. rewrite lookup_insert_eq.
    cbn [i_features]. rewrite !includes_keys. unfold effective.
    rewrite !obj_get_set. cbn [String.eqb Ascii.eqb Bool.eqb].
    rewrite obj_get_spread by done. by rewrite Hname. }
  split; [apply Hget|]. unfold method, bind. by rewrite Hget.
Qed.

Lemma handle_name_is_unreadable_witness :
  let impl := λ (_ : nat) (_ : value) (_ : list value), Normal VUndef in
  let st1 := final (construct "u" [("greet", cb1)] init) in
  instances init !! "u" = None
  ∧ inherited "u" = None
  ∧ NoDup [("greet", cb1)].*1
  ∧ obj_get "name" [("greet", cb1)] = None
  ∧ method impl 3 "u" "name" [] st1 = (Throw TypeError, st1, []).
Proof.
  cbv zeta. split; [reflexivity|]. split; [reflexivity|].
  assert (Hnd : NoDup [("greet", cb1)].*1).
  { apply NoDup_cons. split; [apply not_elem_of_nil|apply NoDup_nil_2]. }
  split; [exact Hnd|]. split; [reflexivity|].
  exact (proj2 (handle_name_is_unreadable (λ _ _ _, Normal VUndef) 3 "u"
                  [("greet", cb1)] [] init eq_refl eq_refl Hnd eq_refl)).
Defined.
